(** * idgenerator: a bounded integer ID allocator

    Shallow embedding of [idgenerator/idgenerator.go] and the properties of
    its four operations: [NewGenerator], [Allocate], [AllocateWithOffset]
    and [FreeID].

    Every public method takes the generator's mutex for its whole body, so
    each call is atomic; the embedding is the sequential semantics of one
    call, as a function from the state before to the state after.

    - [int64] values are integers of [Z] with the two's-complement
      wrap-around of Go's arithmetic written out ([Int64.wrap]).
    - [map[int64]bool] is a [gmap Z bool]; the code only ever tests whether
      a key is present.
    - The two [for] loops carry a budget of iterations ([fuel]); a run is
      [Done], [Panic] (integer division by zero in [updateOffset]) or
      [OutOfFuel] (the budget was smaller than the number of iterations). *)

From Stdlib Require Import ZArith Lia.
From stdpp Require Import base gmap strings list.

Local Open Scope Z_scope.

(** ** Go's [int64] *)

Module Int64.

Definition min_int : Z := - 2 ^ 63.
Definition max_int : Z := 2 ^ 63 - 1.

Definition in_range (z : Z) : Prop := min_int <= z <= max_int.

(** The value of the 64-bit two's-complement pattern of [z]. *)
Definition wrap (z : Z) : Z := (z + 2 ^ 63) mod 2 ^ 64 - 2 ^ 63.

Definition add (a b : Z) : Z := wrap (a + b).
Definition sub (a b : Z) : Z := wrap (a - b).

(** [a % b]: truncated remainder (the sign follows the dividend);
    [None] is the run-time panic on a zero divisor. *)
Definition rem (a b : Z) : option Z :=
  if decide (b = 0) then None else Some (Z.rem a b).

End Int64.

(** ** Outcomes of a run *)

Inductive run (A : Type) : Type :=
| Done (a : A)
| Panic
| OutOfFuel.

Arguments Done {A} a.
Arguments Panic {A}.
Arguments OutOfFuel {A}.

#[global] Instance run_ret : MRet run := fun A a => Done a.

#[global] Instance run_bind : MBind run := fun A B f m =>
  match m with
  | Done a => f a
  | Panic => Panic
  | OutOfFuel => OutOfFuel
  end.

(** ** The generator *)

Record IDGenerator : Type := mkIDGenerator {
  minValue : Z;
  maxValue : Z;
  valueRange : Z;
  offset : Z;
  usedMap : gmap Z bool
}.

Definition with_offset (o : Z) (g : IDGenerator) : IDGenerator :=
  mkIDGenerator (minValue g) (maxValue g) (valueRange g) o (usedMap g).

Definition with_usedMap (m : gmap Z bool) (g : IDGenerator) : IDGenerator :=
  mkIDGenerator (minValue g) (maxValue g) (valueRange g) (offset g) m.

(** [errors.New("No available value range to allocate id")] *)
Definition errExhausted : string := "No available value range to allocate id".

(** A Go result [(int64, error)]; [None] is the [nil] error. *)
Definition result : Type := Z * option string.

(** [init], called by [NewGenerator] on a zeroed struct. *)
Definition init (minV maxV : Z) : IDGenerator :=
  {| minValue := minV;
     maxValue := maxV;
     valueRange := Int64.add (Int64.sub maxV minV) 1;
     offset := 0;
     usedMap := ∅ |}.

Definition NewGenerator (minV maxV : Z) : IDGenerator := init minV maxV.

(** [offset++; offset = offset % valueRange] *)
Definition updateOffset (g : IDGenerator) : run IDGenerator :=
  let g1 := with_offset (Int64.add (offset g) 1) g in
  match Int64.rem (offset g1) (valueRange g1) with
  | Some r => Done (with_offset r g1)
  | None => Panic
  end.

(** How a scanning loop is left: by [break], or by the [return] of the
    error inside it. *)
Inductive exit (A : Type) : Type :=
| Break (a : A)
| Exhausted (a : A).

Arguments Break {A} a.
Arguments Exhausted {A} a.

(** The [for] loop of [Allocate]; the state it is left in is returned. *)
Fixpoint Allocate_scan (fuel : nat) (offsetBegin : Z) (g : IDGenerator)
  : run (exit IDGenerator) :=
  match fuel with
  | O => OutOfFuel
  | S fuel' =>
      match usedMap g !! offset g with
      | Some _ =>
          g1 ← updateOffset g;
          if decide (offset g1 = offsetBegin) then Done (Exhausted g1)
          else Allocate_scan fuel' offsetBegin g1
      | None => Done (Break g)
      end
  end.

Definition Allocate (fuel : nat) (g : IDGenerator) : run (result * IDGenerator) :=
  let offsetBegin := offset g in
  e ← Allocate_scan fuel offsetBegin g;
  match e with
  | Exhausted g1 => Done ((0, Some errExhausted), g1)
  | Break g1 =>
      let g2 := with_usedMap (<[offset g1 := true]> (usedMap g1)) g1 in
      let id := Int64.add (offset g2) (minValue g2) in
      g3 ← updateOffset g2;
      Done ((id, None), g3)
  end.

(** The [for] loop of [AllocateWithOffset]; only the local [current]
    changes in it. *)
Fixpoint AllocateWithOffset_scan (fuel : nat) (g : IDGenerator) (current : Z)
  : run (exit Z) :=
  match fuel with
  | O => OutOfFuel
  | S fuel' =>
      match usedMap g !! current with
      | Some _ =>
          let current1 := Int64.add current 1 in
          if decide (current1 > maxValue g) then Done (Exhausted current1)
          else AllocateWithOffset_scan fuel' g current1
      | None => Done (Break current)
      end
  end.

Definition AllocateWithOffset (fuel : nat) (g : IDGenerator) (offset0 : Z)
  : run (result * IDGenerator) :=
  e ← AllocateWithOffset_scan fuel g offset0;
  match e with
  | Exhausted _ => Done ((0, Some errExhausted), g)
  | Break current =>
      let g1 := with_usedMap (<[current := true]> (usedMap g)) g in
      let id := current in
      Done ((id, None), g1)
  end.

(** The trace written by [fmt.Printf] is not part of the state. *)
Definition FreeID (g : IDGenerator) (id : Z) : IDGenerator :=
  if decide (id < minValue g ∨ id > maxValue g) then g
  else with_usedMap (delete id (usedMap g)) g.

(** ** Sequences of calls *)

Inductive call : Type :=
| CallAllocate
| CallAllocateWithOffset (offset0 : Z)
| CallFreeID (id : Z).

(** One call; [FreeID] returns nothing. *)
Definition perform (fuel : nat) (g : IDGenerator) (c : call)
  : run (option result * IDGenerator) :=
  match c with
  | CallAllocate => '(r, g') ← Allocate fuel g; Done (Some r, g')
  | CallAllocateWithOffset o => '(r, g') ← AllocateWithOffset fuel g o; Done (Some r, g')
  | CallFreeID id => Done (None, FreeID g id)
  end.

(** The calls of [cs] in order, with the list of what they returned. *)
Fixpoint perform_all (fuel : nat) (g : IDGenerator) (cs : list call)
  : run (list (option result) * IDGenerator) :=
  match cs with
  | [] => Done ([], g)
  | c :: cs' =>
      '(r, g1) ← perform fuel g c;
      '(rs, g2) ← perform_all fuel g1 cs';
      Done (r :: rs, g2)
  end.

(** ** Predicates on states *)

(** The key [k] is present in the map. *)
Definition used (g : IDGenerator) (k : Z) : Prop := is_Some (usedMap g !! k).

(** The ID [id] is in use: its offset from [minValue] is a key. *)
Definition in_use (g : IDGenerator) (id : Z) : Prop :=
  used g (Int64.sub id (minValue g)).

(** The range has a positive [int64] size and the cursor is an offset in it. *)
Definition cursor_ok (g : IDGenerator) : Prop :=
  0 < valueRange g <= Int64.max_int ∧ 0 <= offset g < valueRange g.


(** [valueRange] is [maxValue - minValue + 1], computed without overflow. *)
Definition range_ok (g : IDGenerator) : Prop :=
  Int64.in_range (minValue g) ∧ Int64.in_range (maxValue g) ∧
  valueRange g = maxValue g - minValue g + 1.

(** [len(usedMap)] is an [int]. *)
Definition len_ok (g : IDGenerator) : Prop :=
  Z.of_nat (size (usedMap g)) <= Int64.max_int.

(** The IDs handed out among the results of a sequence of calls. *)
Definition returned_ids (rs : list (option result)) : list Z :=
  omap (λ r, match r with Some (id, None) => Some id | _ => None end) rs.

(** [k] calls of [Allocate] in a row. *)
Definition allocations (k : nat) : list call := replicate k CallAllocate.

(** ** Arithmetic of [int64] *)

Section int64_facts.

Lemma wrap_id z : Int64.in_range z → Int64.wrap z = z.
Proof.
  unfold Int64.in_range, Int64.min_int, Int64.max_int, Int64.wrap.
  intros Hz. rewrite Z.mod_small; lia.
Qed.

Lemma wrap_in_range z : Int64.in_range (Int64.wrap z).
Proof.
  unfold Int64.in_range, Int64.min_int, Int64.max_int, Int64.wrap.
  pose proof (Z.mod_pos_bound (z + 2 ^ 63) (2 ^ 64)). lia.
Qed.

Lemma wrap_add_l a b : Int64.wrap (Int64.wrap a + b) = Int64.wrap (a + b).
Proof.
  unfold Int64.wrap. f_equal.
  replace ((a + 2 ^ 63) mod 2 ^ 64 - 2 ^ 63 + b + 2 ^ 63)
    with ((a + 2 ^ 63) mod 2 ^ 64 + b) by lia.
  replace (a + b + 2 ^ 63) with ((a + 2 ^ 63) + b) by lia.
  rewrite Zplus_mod_idemp_l. reflexivity.
Qed.

(** Fewer than [2^64] increments never come back to the same value. *)
Lemma wrap_add_inj c i j :
  0 <= i < 2 ^ 64 → 0 <= j < 2 ^ 64 →
  Int64.wrap (c + i) = Int64.wrap (c + j) → i = j.
Proof.
  unfold Int64.wrap. intros Hi Hj Heq.
  assert (Hm : (c + i + 2 ^ 63) mod 2 ^ 64 = (c + j + 2 ^ 63) mod 2 ^ 64) by lia.
  rewrite (Z.mod_eq (c + i + 2 ^ 63)), (Z.mod_eq (c + j + 2 ^ 63)) in Hm by lia.
  set (q1 := (c + i + 2 ^ 63) / 2 ^ 64) in *.
  set (q2 := (c + j + 2 ^ 63) / 2 ^ 64) in *.
  assert (q1 = q2 ∨ q1 < q2 ∨ q2 < q1) as [E | [E | E]] by lia; lia.
Qed.

Lemma add_small a b :
  Int64.in_range (a + b) → Int64.add a b = a + b.
Proof. apply wrap_id. Qed.

End int64_facts.

(** ** Frame facts: which fields an operation can change *)

Section frame.

Lemma with_offset_id g : with_offset (offset g) g = g.
Proof. by destruct g. Qed.

Lemma with_offset_twice a b g : with_offset a (with_offset b g) = with_offset a g.
Proof. done. Qed.

Lemma updateOffset_frame g g1 :
  updateOffset g = Done g1 → g1 = with_offset (offset g1) g.
Proof.
  unfold updateOffset. destruct (Int64.rem _ _); [|done].
  intros [= <-]. done.
Qed.

Lemma Allocate_scan_frame fuel b g e :
  Allocate_scan fuel b g = Done e →
  match e with
  | Break g1 => g1 = with_offset (offset g1) g ∧ ¬ used g (offset g1)
  | Exhausted g1 => g1 = with_offset b g
  end.
Proof.
  revert g. induction fuel as [|fuel IH]; intros g; simpl; [done|].
  destruct (usedMap g !! offset g) as [v|] eqn:Hu.
  - destruct (updateOffset g) as [g1| |] eqn:Hup; simpl; [|done|done].
    apply updateOffset_frame in Hup.
    destruct (decide (offset g1 = b)) as [Hb|Hb].
    + intros [= <-]. by rewrite <- Hb.
    + intros H. apply IH in H. rewrite Hup in H.
      destruct e as [g2|g2]; simpl in *; [|done].
      destruct H as [H1 H2]. split; [done|]. exact H2.
  - intros [= <-]. split; [by rewrite with_offset_id|].
    unfold used. rewrite Hu. by intros [? ?].
Qed.

Lemma AllocateWithOffset_scan_cursor fuel g c o :
  AllocateWithOffset_scan fuel (with_offset c g) o =
  AllocateWithOffset_scan fuel g o.
Proof.
  revert o. induction fuel as [|fuel IH]; intros o; simpl; [done|].
  destruct (usedMap g !! o); [|done].
  destruct (decide (Int64.add o 1 > maxValue g)); [done|]. apply IH.
Qed.

End frame.

(** ** The rotating scan of [Allocate] *)

Section allocate_scan.

Lemma mod_step b i s :
  0 < s → ((b + i) mod s + 1) mod s = (b + i + 1) mod s.
Proof. intros Hs. by rewrite Zplus_mod_idemp_l. Qed.

(** Stepping from [b] comes back to [b] exactly after [s] steps. *)
Lemma mod_back b i s :
  0 <= b < s → 0 <= i < s → (b + i + 1) mod s = b ↔ i + 1 = s.
Proof.
  intros Hb Hi. split.
  - intros Hm. destruct (decide (b + i + 1 < s)) as [Hlt|Hge].
    + rewrite Z.mod_small in Hm; lia.
    + replace (b + i + 1) with ((b + i + 1 - s) + 1 * s) in Hm by lia.
      rewrite Z_mod_plus_full, Z.mod_small in Hm; lia.
  - intros Hs. replace (b + i + 1) with (b + 1 * s) by lia.
    rewrite Z_mod_plus_full, Z.mod_small; lia.
Qed.

Lemma updateOffset_ok g :
  cursor_ok g →
  updateOffset g = Done (with_offset ((offset g + 1) mod valueRange g) g).
Proof.
  intros [[Hs1 Hs2] Ho]. unfold updateOffset, Int64.rem. simpl.
  assert (Hadd : Int64.add (offset g) 1 = offset g + 1).
  { apply add_small. unfold Int64.in_range, Int64.min_int, Int64.max_int in *. lia. }
  rewrite Hadd. destruct (decide (valueRange g = 0)) as [?|_]; [lia|].
  rewrite Z.rem_mod_nonneg by lia. done.
Qed.

Lemma cursor_ok_with_offset g o :
  cursor_ok g → 0 <= o < valueRange g → cursor_ok (with_offset o g).
Proof. intros [? ?] ?. by split. Qed.

(** What the loop does from the [i]-th position after [b], in a budget of
    at least the [s - i] positions left: it breaks at the first free one,
    or finds them all taken and is back at [b]. *)
Lemma Allocate_scan_spec n b g i :
  cursor_ok g →
  0 <= b < valueRange g → 0 <= i < valueRange g →
  offset g = (b + i) mod valueRange g →
  valueRange g - i <= Z.of_nat n →
  (∃ j, i <= j < valueRange g ∧
        (∀ k, i <= k < j → used g ((b + k) mod valueRange g)) ∧
        ¬ used g ((b + j) mod valueRange g) ∧
        Allocate_scan n b g =
          Done (Break (with_offset ((b + j) mod valueRange g) g)))
  ∨ ((∀ k, i <= k < valueRange g → used g ((b + k) mod valueRange g)) ∧
     Allocate_scan n b g = Done (Exhausted (with_offset b g))).
Proof.
  revert g i. induction n as [|n IH]; intros g i Hok Hb Hi Ho Hn; [lia|].
  simpl. destruct (usedMap g !! offset g) as [v|] eqn:Hu.
  - rewrite (updateOffset_ok g Hok). simpl.
    assert (Hnext : (offset g + 1) mod valueRange g = (b + i + 1) mod valueRange g).
    { rewrite Ho. apply mod_step. lia. }
    rewrite Hnext.
    assert (Hui : used g ((b + i) mod valueRange g)).
    { rewrite <- Ho. unfold used. rewrite Hu. eauto. }
    destruct (decide ((b + i + 1) mod valueRange g = b)) as [Hback|Hback].
    + right. rewrite Hback. split; [|done].
      apply mod_back in Hback; [|done|done].
      intros k Hk. replace k with i by lia. done.
    + assert (Hlt : i + 1 < valueRange g).
      { destruct (decide (i + 1 = valueRange g)) as [E|E]; [|lia].
        exfalso. apply Hback. by apply mod_back. }
      set (g1 := with_offset ((b + i + 1) mod valueRange g) g).
      destruct (IH g1 (i + 1)) as [(j & Hj & Hall & Hfree & Hrun)|[Hall Hrun]].
      * apply cursor_ok_with_offset; [done|]. apply Z.mod_pos_bound. lia.
      * done.
      * simpl. lia.
      * simpl. f_equal. lia.
      * simpl. lia.
      * left. exists j. split; [simpl in Hj; lia|].
        split; [|split; [exact Hfree|exact Hrun]].
        intros k Hk. destruct (decide (k = i)) as [->|Hne]; [done|].
        apply (Hall k). lia.
      * right. split; [|exact Hrun].
        intros k Hk. destruct (decide (k = i)) as [->|Hne]; [done|].
        apply (Hall k). simpl. lia.
  - left. exists i. split; [lia|]. split; [intros; lia|].
    split.
    + rewrite <- Ho. unfold used. rewrite Hu. by intros [? ?].
    + rewrite <- Ho. by rewrite with_offset_id.
Qed.

(** Every offset of the range is one of the positions after [b]. *)
Lemma offset_as_position b s p :
  0 < s → 0 <= b < s → 0 <= p < s →
  ∃ k, 0 <= k < s ∧ (b + k) mod s = p.
Proof.
  intros Hs Hb Hp. destruct (decide (b <= p)) as [Hle|Hgt].
  - exists (p - b). split; [lia|]. rewrite Z.mod_small; lia.
  - exists (p - b + s). split; [lia|].
    replace (b + (p - b + s)) with (p + 1 * s) by lia.
    rewrite Z_mod_plus_full, Z.mod_small; lia.
Qed.

(** The whole call, from a state with a valid cursor. *)
Lemma Allocate_spec n g :
  cursor_ok g → valueRange g <= Z.of_nat n →
  (∃ o, 0 <= o < valueRange g ∧ ¬ used g o ∧
        Allocate n g =
          Done ((Int64.add o (minValue g), None),
                with_offset ((o + 1) mod valueRange g)
                  (with_usedMap (<[o := true]> (usedMap g)) g)))
  ∨ ((∀ p, 0 <= p < valueRange g → used g p) ∧
     Allocate n g = Done ((0, Some errExhausted), g)).
Proof.
  intros Hok Hn. pose proof Hok as [[Hs1 Hs2] Ho].
  destruct (Allocate_scan_spec n (offset g) g 0)
    as [(j & Hj & _ & Hfree & Hrun)|[Hall Hrun]];
    [done|done|lia|by rewrite Z.add_0_r, Z.mod_small|lia| |].
  - left. set (o := (offset g + j) mod valueRange g) in *.
    assert (Hob : 0 <= o < valueRange g) by (apply Z.mod_pos_bound; lia).
    exists o. split; [done|]. split; [done|].
    unfold Allocate. rewrite Hrun. simpl.
    rewrite updateOffset_ok; [done|].
    split; simpl; done.
  - right. split.
    + intros p Hp.
      destruct (offset_as_position (offset g) (valueRange g) p)
        as (k & Hk & <-); [lia|done|done|].
      by apply Hall.
    + unfold Allocate. rewrite Hrun. simpl. by rewrite with_offset_id.
Qed.

End allocate_scan.

(** ** The linear scan of [AllocateWithOffset] *)

Section offset_scan.

Lemma add_one_in_range c : Int64.in_range (Int64.add c 1).
Proof. apply wrap_in_range. Qed.

Lemma add_one_small c :
  Int64.in_range c → c < Int64.max_int → Int64.add c 1 = c + 1.
Proof.
  intros Hc Hlt. apply add_small.
  unfold Int64.in_range, Int64.min_int, Int64.max_int in *. lia.
Qed.

(** A budget of [n] iterations is spent only on [n] taken positions. *)
Lemma AllocateWithOffset_scan_spent n g c :
  Int64.in_range c →
  AllocateWithOffset_scan n g c = OutOfFuel →
  ∀ j : nat, (j < n)%nat → used g (Int64.wrap (c + Z.of_nat j)).
Proof.
  revert c. induction n as [|n IH]; intros c Hc Hrun j Hj; [lia|].
  simpl in Hrun. destruct (usedMap g !! c) as [v|] eqn:Hu; [|done].
  destruct (decide (Int64.add c 1 > maxValue g)); [done|].
  destruct j as [|j].
  - rewrite Z.add_0_r, wrap_id by done. unfold used. rewrite Hu. eauto.
  - specialize (IH _ (add_one_in_range c) Hrun j ltac:(lia)).
    unfold Int64.add in IH. rewrite wrap_add_l in IH.
    replace (c + Z.of_nat (S j)) with (c + 1 + Z.of_nat j) by lia. done.
Qed.

(** The loop never panics. *)
Lemma AllocateWithOffset_scan_no_panic n g c :
  AllocateWithOffset_scan n g c ≠ Panic.
Proof.
  revert c. induction n as [|n IH]; intros c; simpl; [done|].
  destruct (usedMap g !! c); [|done].
  destruct (decide (Int64.add c 1 > maxValue g)); [done|apply IH].
Qed.

(** More positions than keys cannot all be taken: a budget of one more
    iteration than there are keys is enough. *)
Lemma AllocateWithOffset_scan_done n g c :
  len_ok g → Int64.in_range c → (size (usedMap g) < n)%nat →
  ∃ e, AllocateWithOffset_scan n g c = Done e.
Proof.
  intros Hlen Hc Hn.
  destruct (AllocateWithOffset_scan n g c) as [e| |] eqn:Hrun; [by exists e| |].
  - by apply AllocateWithOffset_scan_no_panic in Hrun.
  - exfalso.
    pose proof (AllocateWithOffset_scan_spent n g c Hc Hrun) as Hall.
    set (pos := λ j : nat, Int64.wrap (c + Z.of_nat j)).
    set (l := pos <$> seq 0 (S (size (usedMap g)))).
    assert (Hnd : NoDup l).
    { apply NoDup_fmap_2_strong; [|apply NoDup_seq].
      intros i j Hi%elem_of_seq Hj%elem_of_seq Heq.
      unfold len_ok, Int64.max_int in Hlen.
      apply wrap_add_inj in Heq; lia. }
    assert (Hsub : l ⊆+ elements (dom (usedMap g))).
    { apply NoDup_submseteq; [done|].
      intros x (j & -> & Hj%elem_of_seq)%list_elem_of_fmap.
      apply elem_of_elements, elem_of_dom. apply Hall. lia. }
    apply submseteq_length in Hsub.
    unfold l in Hsub. rewrite length_fmap, length_seq in Hsub.
    change (length (elements (dom (usedMap g)))) with (size (dom (usedMap g))) in Hsub.
    rewrite size_dom in Hsub. lia.
Qed.

(** A run that is done stays the same under a larger budget. *)
Lemma AllocateWithOffset_scan_mono n n' g c e :
  (n <= n')%nat →
  AllocateWithOffset_scan n g c = Done e →
  AllocateWithOffset_scan n' g c = Done e.
Proof.
  revert n' c. induction n as [|n IH]; intros n' c Hle; simpl; [done|].
  destruct n' as [|n']; [lia|]. simpl.
  destruct (usedMap g !! c); [|done].
  destruct (decide (Int64.add c 1 > maxValue g)); [done|].
  apply IH. lia.
Qed.

Section no_wrap.

Variable g : IDGenerator.
Hypothesis Hmax : maxValue g < Int64.max_int.

(** The error is returned only past a run of taken positions that
    starts at [c] and covers the rest of the range. *)
Lemma AllocateWithOffset_scan_exhausted n c x :
  Int64.in_range c → c < Int64.max_int →
  AllocateWithOffset_scan n g c = Done (Exhausted x) →
  used g c ∧ ∀ p, c <= p <= maxValue g → used g p.
Proof.
  revert c. induction n as [|n IH]; intros c Hc Hlt; simpl; [done|].
  destruct (usedMap g !! c) as [v|] eqn:Hu; [|done].
  assert (Huc : used g c) by (unfold used; rewrite Hu; eauto).
  rewrite add_one_small by done.
  destruct (decide (c + 1 > maxValue g)) as [Hgt|Hle].
  - intros _. split; [done|]. intros p Hp. replace p with c by lia. done.
  - intros Hrun. apply IH in Hrun as [Hu1 Hall].
    + split; [done|]. intros p Hp.
      destruct (decide (p = c)) as [->|Hne]; [done|]. apply Hall. lia.
    + unfold Int64.in_range, Int64.min_int, Int64.max_int in *. lia.
    + lia.
Qed.

(** The loop breaks at a free position: [c] itself, or one above it
    within the range. *)
Lemma AllocateWithOffset_scan_break n c x :
  Int64.in_range c → c < Int64.max_int →
  AllocateWithOffset_scan n g c = Done (Break x) →
  ¬ used g x ∧ (x = c ∨ c < x <= maxValue g).
Proof.
  revert c. induction n as [|n IH]; intros c Hc Hlt; simpl; [done|].
  destruct (usedMap g !! c) as [v|] eqn:Hu.
  - rewrite add_one_small by done.
    destruct (decide (c + 1 > maxValue g)) as [Hgt|Hle]; [done|].
    intros Hrun. apply IH in Hrun as [Hfree Hx].
    + split; [done|]. right. lia.
    + unfold Int64.in_range, Int64.min_int, Int64.max_int in *. lia.
    + lia.
  - intros [= <-]. split; [|by left].
    unfold used. rewrite Hu. by intros [? ?].
Qed.

End no_wrap.

(** A free starting position is returned at once, whatever it is. *)
Lemma AllocateWithOffset_free n g o :
  ¬ used g o →
  AllocateWithOffset (S n) g o =
    Done ((o, None), with_usedMap (<[o := true]> (usedMap g)) g).
Proof.
  intros Hfree. unfold AllocateWithOffset. simpl.
  destruct (usedMap g !! o) as [v|] eqn:Hu; [|done].
  exfalso. apply Hfree. unfold used. rewrite Hu. eauto.
Qed.

End offset_scan.

(** ** Budgets, construction and release *)

Section basics.

Lemma Allocate_scan_mono n n' b g e :
  (n <= n')%nat →
  Allocate_scan n b g = Done e → Allocate_scan n' b g = Done e.
Proof.
  revert n' g. induction n as [|n IH]; intros n' g Hle; simpl; [done|].
  destruct n' as [|n']; [lia|]. simpl.
  destruct (usedMap g !! offset g); [|done].
  destruct (updateOffset g) as [g1| |]; simpl; [|done|done].
  destruct (decide (offset g1 = b)); [done|]. apply IH. lia.
Qed.

Lemma Allocate_mono n n' g x :
  (n <= n')%nat → Allocate n g = Done x → Allocate n' g = Done x.
Proof.
  intros Hle. unfold Allocate.
  destruct (Allocate_scan n (offset g) g) as [e| |] eqn:Hrun; simpl; [|done|done].
  by rewrite (Allocate_scan_mono n n' _ _ _ Hle Hrun).
Qed.

(** What a completed [Allocate] did, whatever its budget was. *)
Lemma Allocate_done n g r g' :
  cursor_ok g → Allocate n g = Done (r, g') →
  (∃ o, 0 <= o < valueRange g ∧ ¬ used g o ∧
        r = (Int64.add o (minValue g), None) ∧
        g' = with_offset ((o + 1) mod valueRange g)
               (with_usedMap (<[o := true]> (usedMap g)) g))
  ∨ ((∀ p, 0 <= p < valueRange g → used g p) ∧
     r = (0, Some errExhausted) ∧ g' = g).
Proof.
  intros Hok Hrun.
  set (m := (n `max` Z.to_nat (valueRange g))%nat).
  apply (Allocate_mono n m) in Hrun; [|lia].
  destruct (Allocate_spec m g Hok) as [(o & Ho & Hfree & Hm)|[Hall Hm]]; [lia| |].
  - left. exists o. rewrite Hm in Hrun. by simplify_eq.
  - right. rewrite Hm in Hrun. by simplify_eq.
Qed.

Lemma AllocateWithOffset_mono n n' g o x :
  (n <= n')%nat →
  AllocateWithOffset n g o = Done x → AllocateWithOffset n' g o = Done x.
Proof.
  intros Hle. unfold AllocateWithOffset.
  destruct (AllocateWithOffset_scan n g o) as [e| |] eqn:Hrun; simpl; [|done|done].
  by rewrite (AllocateWithOffset_scan_mono n n' _ _ _ Hle Hrun).
Qed.

(** A range that fits [int64] gets its true size and a valid cursor. *)
Lemma NewGenerator_ok minV maxV :
  Int64.in_range minV → Int64.in_range maxV →
  minV <= maxV → maxV - minV < Int64.max_int →
  cursor_ok (NewGenerator minV maxV) ∧ range_ok (NewGenerator minV maxV).
Proof.
  unfold Int64.in_range, Int64.min_int, Int64.max_int.
  intros Hmin Hmax Hle Hfit.
  assert (Hs : valueRange (NewGenerator minV maxV) = maxV - minV + 1).
  { simpl. unfold Int64.sub.
    rewrite (wrap_id (maxV - minV)), add_small; [done| |];
      unfold Int64.in_range, Int64.min_int, Int64.max_int; lia. }
  split.
  - unfold cursor_ok. rewrite Hs. simpl. unfold Int64.max_int. lia.
  - unfold range_ok. rewrite Hs. simpl.
    unfold Int64.in_range, Int64.min_int, Int64.max_int. done.
Qed.

Lemma NewGenerator_empty minV maxV k : ¬ used (NewGenerator minV maxV) k.
Proof. unfold used. simpl. rewrite lookup_empty. by intros [? ?]. Qed.

(** [FreeID] within the bounds deletes the key [id] itself. *)
Lemma FreeID_inside g id :
  minValue g <= id <= maxValue g →
  FreeID g id = with_usedMap (delete id (usedMap g)) g.
Proof. intros Hid. unfold FreeID. case_decide; [lia|done]. Qed.

Lemma FreeID_outside g id :
  id < minValue g ∨ id > maxValue g → FreeID g id = g.
Proof. intros Hid. unfold FreeID. by case_decide. Qed.


Lemma used_insert g o k :
  used (with_usedMap (<[o := true]> (usedMap g)) g) k ↔ k = o ∨ used g k.
Proof.
  unfold used. simpl. destruct (decide (o = k)) as [->|Hne].
  - rewrite lookup_insert_eq. split; [by left|eauto].
  - rewrite lookup_insert_ne by done. split; [by right|]. intros [?|?]; [congruence|done].
Qed.

End basics.

(** ** States reached from a fresh generator *)

Section reachable.

(** No call moves the cursor out of the range or changes the bounds. *)
Lemma perform_cursor_ok n g c r g' :
  cursor_ok g → perform n g c = Done (r, g') →
  cursor_ok g' ∧ minValue g' = minValue g ∧ maxValue g' = maxValue g ∧
  valueRange g' = valueRange g.
Proof.
  intros Hok. destruct c as [|o|id]; simpl.
  - destruct (Allocate n g) as [[r1 g1]| |] eqn:Hrun; simpl; [|done|done].
    intros [= <- <-].
    destruct (Allocate_done n g r1 g1 Hok Hrun)
      as [(o & Ho & _ & _ & ->)|(_ & _ & ->)]; [|done].
    split; [|done]. apply cursor_ok_with_offset; [done|]. simpl.
    apply Z.mod_pos_bound. destruct Hok as [[? ?] ?]. lia.
  - unfold AllocateWithOffset.
    destruct (AllocateWithOffset_scan n g o) as [[x|x]| |]; simpl; [| |done|done];
      by intros [= <- <-].
  - intros [= <- <-]. unfold FreeID. by case_decide.
Qed.

Lemma perform_all_cursor_ok n cs :
  ∀ g rs g',
    cursor_ok g → perform_all n g cs = Done (rs, g') →
    cursor_ok g' ∧ valueRange g' = valueRange g.
Proof.
  induction cs as [|c cs IH]; intros g rs g' Hok; simpl.
  - by intros [= <- <-].
  - destruct (perform n g c) as [[r g1]| |] eqn:Hc; simpl; [|done|done].
    destruct (perform_all n g1 cs) as [[rs1 g2]| |] eqn:Hcs; simpl; [|done|done].
    intros [= <- <-].
    apply (perform_cursor_ok _ _ _ _ _ Hok) in Hc as (Hok1 & _ & _ & Hs1).
    apply (IH _ _ _ Hok1) in Hcs as [Hok2 Hs2]. split; [done|congruence].
Qed.

End reachable.

(** ** Release and reuse *)

(** C1 (as the code behaves). With [minValue = 1] and [maxValue = 1] the
    first [Allocate] returns 1 and the second reports the exhausted range,
    as claimed; but [FreeID 1] deletes the key 1 where [Allocate] had
    recorded the offset 0, so the map still holds 0 and the [Allocate] after
    it reports the exhausted range again instead of returning 1. *)
Theorem FreeID_does_not_release_1_1 :
  perform_all 1 (NewGenerator 1 1)
    [CallAllocate; CallAllocate; CallFreeID 1; CallAllocate]
  = Done ([Some (1, None); Some (0, Some errExhausted); None;
           Some (0, Some errExhausted)],
          mkIDGenerator 1 1 1 0 {[0 := true]}).
Proof. vm_compute. reflexivity. Qed.

(** C2 (as the code behaves). With [minValue = 1] and [maxValue = 5], after
    five calls of [Allocate] have returned 1 to 5, [FreeID 3] deletes the
    key 3, which is the offset of the ID 4; the next [Allocate] scans the
    offsets 0, 1, 2, finds 3 free and returns 4, not 3. *)
Theorem Allocate_after_FreeID_3_returns_4 :
  perform_all 5 (NewGenerator 1 5)
    (allocations 5 ++ [CallFreeID 3; CallAllocate])
  = Done ([Some (1, None); Some (2, None); Some (3, None); Some (4, None);
           Some (5, None); None; Some (4, None)],
          mkIDGenerator 1 5 5 4
            (<[0 := true]> (<[1 := true]> (<[2 := true]> (<[3 := true]>
              {[4 := true]}))))).
Proof. vm_compute. reflexivity. Qed.

(** ** The keys of the map *)




(** ** Failure leaves the state alone *)

(** C7. A call of [Allocate] or [AllocateWithOffset] that returns the error
    returns the generator it was given: same map and same cursor (the scan
    of [Allocate] gives up only when the cursor is back where it began). *)
Theorem exhausted_leaves_state_unchanged :
  (∀ n g id e g', Allocate n g = Done ((id, Some e), g') → g' = g) ∧
  (∀ n g o id e g', AllocateWithOffset n g o = Done ((id, Some e), g') → g' = g).
Proof.
  split.
  - intros n g id e g'. unfold Allocate.
    destruct (Allocate_scan n (offset g) g) as [[g1|g1]| |] eqn:Hrun;
      simpl; [|intros [= _ _ <-]|done|done].
    + destruct (updateOffset _); simpl; done.
    + apply Allocate_scan_frame in Hrun. rewrite Hrun. apply with_offset_id.
  - intros n g o id e g'. unfold AllocateWithOffset.
    destruct (AllocateWithOffset_scan n g o) as [[c|c]| |]; simpl; try done.
    by intros [= _ _ <-].
Qed.

Lemma exhausted_leaves_state_unchanged_witness :
  Allocate 1 (mkIDGenerator 1 1 1 0 {[0 := true]})
    = Done ((0, Some errExhausted), mkIDGenerator 1 1 1 0 {[0 := true]}) ∧
  AllocateWithOffset 1 (mkIDGenerator 1 10 10 0 {[10 := true]}) 10
    = Done ((0, Some errExhausted), mkIDGenerator 1 10 10 0 {[10 := true]}).
Proof.
  assert (H1 : ∃ g', Allocate 1 (mkIDGenerator 1 1 1 0 {[0 := true]})
                     = Done ((0, Some errExhausted), g')).
  { eexists. vm_compute. reflexivity. }
  assert (H2 : ∃ g', AllocateWithOffset 1 (mkIDGenerator 1 10 10 0 {[10 := true]}) 10
                     = Done ((0, Some errExhausted), g')).
  { eexists. vm_compute. reflexivity. }
  destruct H1 as [g1 H1], H2 as [g2 H2]. split.
  - rewrite H1. do 2 f_equal.
    exact (proj1 exhausted_leaves_state_unchanged _ _ _ _ _ H1).
  - rewrite H2. do 2 f_equal.
    exact (proj2 exhausted_leaves_state_unchanged _ _ _ _ _ _ H2).
Defined.

(** ** [AllocateWithOffset] and the cursor *)

(** C9. [AllocateWithOffset] neither writes nor reads the cursor: a call
    that completes, with an ID or with the error, leaves [offset] (and the
    bounds) as they were and changes at most the map; and started from any
    other cursor value it returns the same result and builds the same map.
    Calls do complete, within one more iteration than the map has keys. *)
Theorem AllocateWithOffset_ignores_cursor :
  (∀ n g o r g',
     AllocateWithOffset n g o = Done (r, g') →
     g' = with_usedMap (usedMap g') g ∧
     ∀ c, AllocateWithOffset n (with_offset c g) o = Done (r, with_offset c g')) ∧
  (∀ g o,
     len_ok g → Int64.in_range o →
     ∃ r g', AllocateWithOffset (S (size (usedMap g))) g o = Done (r, g')).
Proof.
  split.
  - intros n g o r g'. unfold AllocateWithOffset.
    assert (Hc : ∀ c, AllocateWithOffset_scan n (with_offset c g) o
                      = AllocateWithOffset_scan n g o)
      by (intros c; apply AllocateWithOffset_scan_cursor).
    destruct (AllocateWithOffset_scan n g o) as [[x|x]| |] eqn:Hrun;
      simpl; [| |done|done].
    + intros [= <- <-]. split; [done|]. intros c. by rewrite Hc.
    + intros [= <- <-]. split; [by destruct g|]. intros c. by rewrite Hc.
  - intros g o Hlen Ho.
    destruct (AllocateWithOffset_scan_done (S (size (usedMap g))) g o)
      as [e He]; [done|done|lia|].
    unfold AllocateWithOffset. rewrite He. destruct e; simpl; eauto.
Qed.

Lemma AllocateWithOffset_ignores_cursor_witness :
  AllocateWithOffset 2 (mkIDGenerator 1 10 10 7 {[4 := true]}) 4
    = Done ((5, None), mkIDGenerator 1 10 10 7 (<[5 := true]> {[4 := true]})) ∧
  ∃ r g',
    AllocateWithOffset
      (S (size (usedMap (mkIDGenerator 1 10 10 0 {[4 := true]}))))
      (mkIDGenerator 1 10 10 0 {[4 := true]}) 4
    = Done (r, g').
Proof.
  assert (H : AllocateWithOffset 2 (mkIDGenerator 1 10 10 0 {[4 := true]}) 4
              = Done ((5, None), mkIDGenerator 1 10 10 0 (<[5 := true]> {[4 := true]})))
    by (vm_compute; reflexivity).
  split.
  - exact (proj2 (proj1 AllocateWithOffset_ignores_cursor _ _ _ _ _ H) 7).
  - apply (proj2 AllocateWithOffset_ignores_cursor
             (mkIDGenerator 1 10 10 0 {[4 := true]}) 4).
    + by vm_compute.
    + by vm_compute.
Defined.

(** C10. [AllocateWithOffset] compares its argument with neither bound
    before it tests the key: whenever [offset0] is not a key of the map the
    call returns [offset0] and records it, below [minValue] and above
    [maxValue] as well; on a fresh generator of the range 5 to 10 it
    returns 2 and, asked again with 11, returns 11. *)
Theorem AllocateWithOffset_no_bounds_check :
  (∀ n g o,
     ¬ used g o →
     AllocateWithOffset (S n) g o =
       Done ((o, None), with_usedMap (<[o := true]> (usedMap g)) g)) ∧
  perform_all 1 (NewGenerator 5 10)
    [CallAllocateWithOffset 2; CallAllocateWithOffset 11]
  = Done ([Some (2, None); Some (11, None)],
          mkIDGenerator 5 10 6 0 (<[11 := true]> {[2 := true]})).
Proof.
  split.
  - intros n g o. apply AllocateWithOffset_free.
  - vm_compute. reflexivity.
Qed.

Lemma AllocateWithOffset_no_bounds_check_witness :
  AllocateWithOffset 1 (NewGenerator 5 10) 1000 =
    Done ((1000, None),
          with_usedMap (<[1000 := true]> (usedMap (NewGenerator 5 10)))
            (NewGenerator 5 10)) ∧
  AllocateWithOffset 1 (NewGenerator 5 10) (-3) =
    Done ((-3, None),
          with_usedMap (<[-3 := true]> (usedMap (NewGenerator 5 10)))
            (NewGenerator 5 10)).
Proof.
  split.
  - apply (proj1 AllocateWithOffset_no_bounds_check 0%nat (NewGenerator 5 10) 1000).
    apply NewGenerator_empty.
  - apply (proj1 AllocateWithOffset_no_bounds_check 0%nat (NewGenerator 5 10) (-3)).
    apply NewGenerator_empty.
Defined.

(** ** Exhaustion *)

(** C6. From a valid cursor [Allocate] completes within [size] iterations,
    and it returns the error exactly when every offset of [0, size) is a
    key of the map. On a fresh generator of the range 1 to 3, four calls in
    a row return 1, 2, 3 and then the error. *)
Theorem Allocate_exhausted_iff :
  (∀ n g,
     cursor_ok g → valueRange g <= Z.of_nat n →
     ∃ r g', Allocate n g = Done (r, g') ∧
       (r.2 = Some errExhausted ↔ ∀ p, 0 <= p < valueRange g → used g p)) ∧
  perform_all 3 (NewGenerator 1 3) (allocations 4)
  = Done ([Some (1, None); Some (2, None); Some (3, None);
           Some (0, Some errExhausted)],
          mkIDGenerator 1 3 3 0 (<[2:=true]> (<[1:=true]> (<[0:=true]> ∅)))).
Proof.
  split; [|vm_compute; reflexivity].
  intros n g Hok Hn.
  destruct (Allocate_spec n g Hok Hn) as [(o & Ho & Hfree & Hrun)|[Hall Hrun]].
  - eexists _, _. split; [exact Hrun|]. simpl. split; [done|].
    intros Hall. exfalso. apply Hfree. by apply Hall.
  - eexists _, _. split; [exact Hrun|]. simpl. done.
Qed.

Lemma Allocate_exhausted_iff_witness :
  ∃ r g', Allocate 1 (mkIDGenerator 1 1 1 0 {[0 := true]}) = Done (r, g') ∧
    (r.2 = Some errExhausted ↔
     ∀ p, 0 <= p < 1 → used (mkIDGenerator 1 1 1 0 {[0 := true]}) p).
Proof.
  apply (proj1 Allocate_exhausted_iff 1%nat (mkIDGenerator 1 1 1 0 {[0 := true]})).
  - unfold cursor_ok, Int64.max_int. simpl. lia.
  - simpl. lia.
Defined.

(** C5 (as the code behaves). On a fresh generator of the range 1 to 10,
    [AllocateWithOffset 11] starts above [maxValue], where no position up
    through [maxValue] is left to find; the loop tests [current > maxValue]
    only after it has found a position taken, so the free 11 is returned
    and recorded instead of the error. *)
Lemma AllocateWithOffset_above_max_succeeds :
  (∀ p, 11 <= p <= maxValue (NewGenerator 1 10) → used (NewGenerator 1 10) p) ∧
  11 > maxValue (NewGenerator 1 10) ∧
  AllocateWithOffset 1 (NewGenerator 1 10) 11
    = Done ((11, None), mkIDGenerator 1 10 10 0 {[11 := true]}).
Proof.
  split; [simpl; intros; lia|]. split; [simpl; lia|].
  vm_compute. reflexivity.
Qed.

(** When [AllocateWithOffset] returns the error. With [offset0] and
    [maxValue] below the largest [int64], the call completes and returns the
    error exactly when [offset0] itself is taken and so is every position
    from [offset0] up through [maxValue]. With [maxValue = 10] and 10 free
    it returns 10, and called again before any release it returns the
    error. *)
Theorem AllocateWithOffset_exhausted_iff :
  (∀ n g o,
     len_ok g → Int64.in_range o → o < Int64.max_int →
     maxValue g < Int64.max_int → (size (usedMap g) < n)%nat →
     ∃ r g', AllocateWithOffset n g o = Done (r, g') ∧
       (r.2 = Some errExhausted ↔
        used g o ∧ ∀ p, o <= p <= maxValue g → used g p)) ∧
  (∀ n n' g,
     maxValue g = 10 → ¬ used g 10 →
     ∃ g', AllocateWithOffset (S n) g 10 = Done ((10, None), g') ∧
           AllocateWithOffset (S n') g' 10 = Done ((0, Some errExhausted), g')).
Proof.
  split.
  - intros n g o Hlen Ho Hlt Hmax Hn.
    destruct (AllocateWithOffset_scan_done n g o Hlen Ho Hn) as [[x|x] Hrun].
    + eexists _, _. unfold AllocateWithOffset. rewrite Hrun. simpl.
      split; [done|]. split; [done|]. intros [Hu Hall]. exfalso.
      apply (AllocateWithOffset_scan_break g Hmax) in Hrun as [Hfree Hx]; [|done|done].
      destruct Hx as [->|Hx]; [done|]. apply Hfree, Hall. lia.
    + eexists _, _. unfold AllocateWithOffset. rewrite Hrun. simpl.
      split; [done|]. split; [|done]. intros _.
      by apply (AllocateWithOffset_scan_exhausted g Hmax) in Hrun.
  - intros n n' g Hmax Hfree. eexists. split.
    + by apply AllocateWithOffset_free.
    + unfold AllocateWithOffset. simpl. rewrite lookup_insert_eq.
      change (Int64.add 10 1) with 11. rewrite Hmax.
      destruct (decide (11 > 10)) as [_|?]; [done|lia].
Qed.

Lemma AllocateWithOffset_exhausted_iff_witness :
  (∃ r g',
     AllocateWithOffset 2 (mkIDGenerator 1 10 10 0 {[10 := true]}) 10
       = Done (r, g') ∧
     (r.2 = Some errExhausted ↔
      used (mkIDGenerator 1 10 10 0 {[10 := true]}) 10 ∧
      ∀ p, 10 <= p <= 10 → used (mkIDGenerator 1 10 10 0 {[10 := true]}) p)) ∧
  (∃ g',
     AllocateWithOffset 1 (NewGenerator 1 10) 10 = Done ((10, None), g') ∧
     AllocateWithOffset 1 g' 10 = Done ((0, Some errExhausted), g')).
Proof.
  split.
  - apply (proj1 AllocateWithOffset_exhausted_iff 2%nat
             (mkIDGenerator 1 10 10 0 {[10 := true]}) 10).
    + by vm_compute.
    + by vm_compute.
    + by vm_compute.
    + by vm_compute.
    + vm_compute. lia.
  - apply (proj2 AllocateWithOffset_exhausted_iff 0%nat 0%nat (NewGenerator 1 10)).
    + reflexivity.
    + apply NewGenerator_empty.
Defined.

(** ** Termination and the length of the scans *)





(** ** The IDs of [Allocate]: runs without release, and release *)

Section unique.

(** The ID that [Allocate] builds from the offset [o] is in use exactly
    when [o] is a key. *)
Lemma sub_add_offset o minV :
  Int64.in_range o → Int64.sub (Int64.add o minV) minV = o.
Proof.
  intros Ho. unfold Int64.sub, Int64.add.
  replace (Int64.wrap (o + minV) - minV) with (Int64.wrap (o + minV) + - minV) by lia.
  rewrite wrap_add_l. replace (o + minV + - minV) with o by lia.
  by apply wrap_id.
Qed.

Lemma add_sub_id id minV :
  Int64.in_range id → Int64.add (Int64.sub id minV) minV = id.
Proof.
  intros Hid. unfold Int64.sub, Int64.add.
  rewrite wrap_add_l. replace (id - minV + minV) with id by lia.
  by apply wrap_id.
Qed.

Lemma offset_in_range g o :
  cursor_ok g → 0 <= o < valueRange g → Int64.in_range o.
Proof.
  intros [[? ?] _] ?. unfold Int64.in_range, Int64.min_int, Int64.max_int in *. lia.
Qed.

(** In a run of [Allocate] calls with no other call between them, from a
    valid cursor over a range that fits [int64], the returned IDs are
    pairwise distinct, lie in [minValue, maxValue], and none of them had its
    offset among the keys at the start. *)
Lemma allocations_unique n k :
  ∀ g,
    cursor_ok g → range_ok g → valueRange g <= Z.of_nat n →
    ∃ rs g',
      perform_all n g (allocations k) = Done (rs, g') ∧
      NoDup (returned_ids rs) ∧
      ∀ id, id ∈ returned_ids rs →
            minValue g <= id <= maxValue g ∧ ¬ in_use g id.
Proof.
  induction k as [|k IH]; intros g Hok Hrange Hn.
  - exists [], g. split; [done|]. split; [constructor|].
    intros id Hid. by apply elem_of_nil in Hid.
  - change (allocations (S k)) with (CallAllocate :: allocations k).
    destruct (Allocate_spec n g Hok Hn) as [(o & Ho & Hfree & Hrun)|[_ Hrun]].
    + set (g1 := with_offset ((o + 1) mod valueRange g)
                   (with_usedMap (<[o := true]> (usedMap g)) g)) in *.
      assert (Hok1 : cursor_ok g1).
      { apply cursor_ok_with_offset; [done|]. simpl.
        apply Z.mod_pos_bound. destruct Hok as [[? ?] ?]. lia. }
      destruct (IH g1 Hok1 Hrange Hn) as (rs & g2 & Hrs & Hnd & Hids).
      pose proof (offset_in_range g o Hok Ho) as Hoin.
      destruct Hrange as (Hmin & Hmax & Hsize).
      assert (Hid : Int64.add o (minValue g) = o + minValue g).
      { apply add_small.
        unfold Int64.in_range, Int64.min_int, Int64.max_int in *. lia. }
      assert (Hin1 : in_use g1 (Int64.add o (minValue g))).
      { unfold in_use. change (minValue g1) with (minValue g).
        rewrite sub_add_offset by done.
        change (used (with_usedMap (<[o := true]> (usedMap g)) g) o).
        apply used_insert. by left. }
      exists (Some (Int64.add o (minValue g), None) :: rs), g2.
      split; [simpl; rewrite Hrun; simpl; fold g1; rewrite Hrs; done|].
      change (returned_ids (Some (Int64.add o (minValue g), None) :: rs))
        with (Int64.add o (minValue g) :: returned_ids rs).
      split.
      * constructor; [|done]. intros Hel. by apply Hids in Hel as [_ Hnot].
      * intros id [->|Hel]%elem_of_cons.
        -- split; [rewrite Hid; lia|].
           unfold in_use. by rewrite sub_add_offset.
        -- apply Hids in Hel as [Hb Hnot]. split; [exact Hb|].
           intros Hu. apply Hnot. unfold in_use in *.
           change (minValue g1) with (minValue g).
           change (used (with_usedMap (<[o := true]> (usedMap g)) g)
                     (Int64.sub id (minValue g))).
           apply used_insert. by right.
    + destruct (IH g Hok Hrange Hn) as (rs & g2 & Hrs & Hnd & Hids).
      exists (Some (0, Some errExhausted) :: rs), g2.
      split; [simpl; rewrite Hrun; simpl; rewrite Hrs; done|].
      split; done.
Qed.

End unique.

(** C4 (as the code behaves). On the range 1 to 3, [Allocate] returns 1
    and then 2; [FreeID 1] deletes the key 1, which is the offset of the ID
    2, an ID that is still held; the next two calls of [Allocate] return 3
    and then 2 again. The ID 2 is handed out a second time although only the
    ID 1 was released, so the IDs that were returned and not released are
    not pairwise distinct. *)
Theorem Allocate_returns_held_id :
  perform_all 3 (NewGenerator 1 3)
    [CallAllocate; CallAllocate; CallFreeID 1; CallAllocate; CallAllocate]
  = Done ([Some (1, None); Some (2, None); None; Some (3, None);
           Some (2, None)],
          mkIDGenerator 1 3 3 2
            (<[0 := true]> (<[1 := true]> {[2 := true]}))).
Proof. vm_compute. reflexivity. Qed.


(** * Further properties of the operations *)

(** ** Helpers on the two scans *)

Section scan_helpers.

(** With the cursor's offset free, [Allocate] is done in one iteration. *)
Lemma Allocate_cursor_free n g :
  usedMap g !! offset g = None →
  Allocate (S n) g =
    g3 ← updateOffset (with_usedMap (<[offset g := true]> (usedMap g)) g);
    Done ((Int64.add (offset g) (minValue g), None), g3).
Proof. intros Hfree. unfold Allocate. simpl. by rewrite Hfree. Qed.

(** The position at which the linear scan breaks is not a key. *)
Lemma AllocateWithOffset_scan_break_free n g c x :
  AllocateWithOffset_scan n g c = Done (Break x) → usedMap g !! x = None.
Proof.
  revert c. induction n as [|n IH]; intros c; simpl; [done|].
  destruct (usedMap g !! c) as [v|] eqn:Hu.
  - destruct (decide (Int64.add c 1 > maxValue g)); [done|]. apply IH.
  - by intros [= <-].
Qed.

Lemma AllocateWithOffset_success n g o id g' :
  AllocateWithOffset n g o = Done ((id, None), g') →
  usedMap g !! id = None ∧
  g' = with_usedMap (<[id := true]> (usedMap g)) g.
Proof.
  unfold AllocateWithOffset.
  destruct (AllocateWithOffset_scan n g o) as [[x|x]| |] eqn:Hrun;
    simpl; [|done|done|done].
  intros [= <- <-]. split; [|done].
  by apply AllocateWithOffset_scan_break_free in Hrun.
Qed.

Lemma not_used_None g k : ¬ used g k ↔ usedMap g !! k = None.
Proof.
  unfold used. split.
  - intros Hn. destruct (usedMap g !! k) eqn:E; [|done]. exfalso. eauto.
  - intros ->. by intros [? ?].
Qed.

End scan_helpers.

(** ** What [FreeID] removes *)

(** X1. [FreeID] removes at most the key [id] itself, and only when [id]
    lies within the bounds: a key is present afterwards exactly when it
    was present before and is not such an [id]. Nothing else of the
    generator changes. *)
Theorem FreeID_removes_only_id g id :
  (∀ k, used (FreeID g id) k ↔
        used g k ∧ ¬ (k = id ∧ minValue g <= id <= maxValue g)) ∧
  FreeID g id = with_usedMap (usedMap (FreeID g id)) g.
Proof.
  unfold FreeID, used. case_decide as Hout; simpl.
  - split; [|by destruct g]. intros k. split; [|by intros [? _]].
    intros Hk. split; [done|]. intros [_ ?]. lia.
  - split; [|done]. intros k. destruct (decide (id = k)) as [->|Hne].
    + rewrite lookup_delete_eq. split; [by intros [? ?]|].
      intros [_ Hn]. exfalso. apply Hn. split; [done|lia].
    + rewrite lookup_delete_ne by done. split; [|by intros [? _]].
      intros Hk. split; [done|]. intros [-> _]. done.
Qed.

(** X2. Releasing is idempotent and order-independent, and releasing an ID
    whose value is not a key changes nothing. *)
Theorem FreeID_idempotent_commutative :
  (∀ g id, FreeID (FreeID g id) id = FreeID g id) ∧
  (∀ g a b, FreeID (FreeID g a) b = FreeID (FreeID g b) a) ∧
  (∀ g id, ¬ used g id → FreeID g id = g).
Proof.
  split; [|split].
  - intros g id.
    destruct (decide (id < minValue g ∨ id > maxValue g)) as [Hout|Hin].
    + by rewrite !(FreeID_outside g id).
    + rewrite (FreeID_inside g id) by lia.
      rewrite FreeID_inside by (simpl; lia).
      unfold with_usedMap. simpl. by rewrite delete_delete_eq.
  - intros g a b.
    destruct (decide (a < minValue g ∨ a > maxValue g)) as [Ha|Ha];
      destruct (decide (b < minValue g ∨ b > maxValue g)) as [Hb|Hb].
    + by rewrite (FreeID_outside g a), (FreeID_outside g b), (FreeID_outside g a).
    + rewrite (FreeID_outside g a) by done.
      rewrite (FreeID_inside g b) by lia. by rewrite FreeID_outside.
    + rewrite (FreeID_outside g b) by done.
      rewrite (FreeID_inside g a) by lia. by rewrite FreeID_outside.
    + rewrite (FreeID_inside g a), (FreeID_inside g b) by lia.
      rewrite !FreeID_inside by (simpl; lia).
      unfold with_usedMap. simpl. by rewrite delete_delete.
  - intros g id Hfree%not_used_None. unfold FreeID. case_decide; [done|].
    rewrite delete_id by done. by destruct g.
Qed.

Lemma FreeID_idempotent_commutative_witness :
  FreeID (mkIDGenerator 1 3 3 1 {[0 := true]}) 2
  = mkIDGenerator 1 3 3 1 {[0 := true]}.
Proof.
  apply (proj2 (proj2 FreeID_idempotent_commutative)).
  apply not_used_None. by vm_compute.
Defined.

(** X3. [FreeID] undoes [AllocateWithOffset]: when the ID that
    [AllocateWithOffset] returned lies within the bounds, releasing it gives
    back exactly the generator from before the call. An ID it returned from
    outside the bounds cannot be released: [FreeID] leaves the generator as
    it is and the key stays. *)
Theorem AllocateWithOffset_then_FreeID n g o id g' :
  AllocateWithOffset n g o = Done ((id, None), g') →
  (minValue g <= id <= maxValue g → FreeID g' id = g) ∧
  (id < minValue g ∨ id > maxValue g → FreeID g' id = g' ∧ used g' id).
Proof.
  intros [Hfree ->]%AllocateWithOffset_success. split.
  - intros Hin. unfold FreeID. simpl. rewrite decide_False by lia.
    unfold with_usedMap. simpl. rewrite delete_insert_id by done. by destruct g.
  - intros Hout. unfold FreeID. simpl. rewrite decide_True by done.
    split; [done|]. unfold used. simpl. rewrite lookup_insert_eq. eauto.
Qed.

Lemma AllocateWithOffset_then_FreeID_witness :
  FreeID (mkIDGenerator 1 10 10 0 (<[5 := true]> {[4 := true]})) 5
    = mkIDGenerator 1 10 10 0 {[4 := true]} ∧
  FreeID (mkIDGenerator 5 10 6 0 {[2 := true]}) 2
    = mkIDGenerator 5 10 6 0 {[2 := true]}.
Proof.
  assert (H1 : AllocateWithOffset 2 (mkIDGenerator 1 10 10 0 {[4 := true]}) 4
               = Done ((5, None),
                       mkIDGenerator 1 10 10 0 (<[5 := true]> {[4 := true]})))
    by (vm_compute; reflexivity).
  assert (H2 : AllocateWithOffset 1 (mkIDGenerator 5 10 6 0 ∅) 2
               = Done ((2, None), mkIDGenerator 5 10 6 0 {[2 := true]}))
    by (vm_compute; reflexivity).
  split.
  - apply (proj1 (AllocateWithOffset_then_FreeID _ _ _ _ _ H1)). simpl. lia.
  - apply (proj2 (AllocateWithOffset_then_FreeID _ _ _ _ _ H2)). simpl. lia.
Defined.

(** X4. [FreeID] releases an ID that [Allocate] returned only on a range
    that starts at 0. [Allocate] records the offset [id - minValue] and
    [FreeID] deletes the key [id]: after [FreeID] of the returned ID the ID
    is still in use exactly when [minValue] is not 0, and when it is 0 the
    map is back to what it was before the [Allocate]. *)
Theorem Allocate_then_FreeID n g id g' :
  cursor_ok g → range_ok g →
  Allocate n g = Done ((id, None), g') →
  (in_use (FreeID g' id) id ↔ minValue g ≠ 0) ∧
  (minValue g = 0 → usedMap (FreeID g' id) = usedMap g).
Proof.
  intros Hok (Hmin & Hmax & Hsize) Hrun.
  destruct (Allocate_done n g _ g' Hok Hrun)
    as [(o & Ho & Hfree & [= ->] & ->)|(_ & [=] & _)].
  pose proof (offset_in_range g o Hok Ho) as Hoin.
  assert (Hid : Int64.add o (minValue g) = o + minValue g).
  { apply add_small.
    unfold Int64.in_range, Int64.min_int, Int64.max_int in *. lia. }
  apply not_used_None in Hfree.
  unfold in_use, FreeID. simpl. rewrite decide_False by lia. simpl.
  rewrite sub_add_offset by done. unfold used. simpl. rewrite Hid. split.
  - destruct (decide (minValue g = 0)) as [Hz|Hnz].
    + rewrite Hz, Z.add_0_r, lookup_delete_eq. split; [by intros [? ?]|done].
    + rewrite lookup_delete_ne by lia. rewrite lookup_insert_eq. split; [done|eauto].
  - intros Hz. rewrite Hz, Z.add_0_r. by rewrite delete_insert_id.
Qed.

Lemma Allocate_then_FreeID_witness :
  (in_use (FreeID (mkIDGenerator 1 3 3 1 {[0 := true]}) 1) 1 ↔ 1 ≠ 0) ∧
  (0 = 0 → usedMap (FreeID (mkIDGenerator 0 2 3 1 {[0 := true]}) 0) = ∅).
Proof.
  assert (H1 : Allocate 3 (NewGenerator 1 3)
               = Done ((1, None), mkIDGenerator 1 3 3 1 {[0 := true]}))
    by (vm_compute; reflexivity).
  assert (H2 : Allocate 3 (NewGenerator 0 2)
               = Done ((0, None), mkIDGenerator 0 2 3 1 {[0 := true]}))
    by (vm_compute; reflexivity).
  split.
  - refine (proj1 (Allocate_then_FreeID _ _ _ _ _ _ H1));
      vm_compute; repeat split; congruence.
  - refine (proj2 (Allocate_then_FreeID _ _ _ _ _ _ H2));
      vm_compute; repeat split; congruence.
Defined.

(** ** The order in which [Allocate] hands out offsets *)

Section allocate_order.

Lemma Allocate_cursor_free_ok n g :
  cursor_ok g → ¬ used g (offset g) →
  Allocate (S n) g =
    Done ((Int64.add (offset g) (minValue g), None),
          with_offset ((offset g + 1) mod valueRange g)
            (with_usedMap (<[offset g := true]> (usedMap g)) g)).
Proof.
  intros Hok Hfree%not_used_None.
  rewrite Allocate_cursor_free by done.
  by rewrite (updateOffset_ok (with_usedMap _ g)).
Qed.

(** Offsets that are all keys are no more than the map has entries. *)
Lemma all_used_size g s :
  (∀ p, 0 <= p < s → used g p) → s <= Z.of_nat (size (usedMap g)).
Proof.
  intros Hall.
  assert (Hsub : seqZ 0 s ⊆+ elements (dom (usedMap g))).
  { apply NoDup_submseteq; [apply NoDup_seqZ|].
    intros x Hx%elem_of_seqZ. apply elem_of_elements, elem_of_dom.
    apply Hall. lia. }
  apply submseteq_length in Hsub. rewrite length_seqZ in Hsub.
  change (length (elements (dom (usedMap g)))) with (size (dom (usedMap g))) in Hsub.
  rewrite size_dom in Hsub. lia.
Qed.

(** [k] calls over a run of [k] free offsets that starts at the cursor. *)
Lemma allocations_run n k :
  ∀ g,
    cursor_ok g → range_ok g →
    offset g + Z.of_nat k <= valueRange g →
    (∀ p, offset g <= p < offset g + Z.of_nat k → ¬ used g p) →
    ∃ g',
      perform_all (S n) g (allocations k)
        = Done ((λ id, Some (id, None)) <$> seqZ (minValue g + offset g) (Z.of_nat k),
                g') ∧
      offset g' = (offset g + Z.of_nat k) mod valueRange g ∧
      (∀ p, used g' p ↔ used g p ∨ offset g <= p < offset g + Z.of_nat k) ∧
      g' = with_offset (offset g') (with_usedMap (usedMap g') g).
Proof.
  induction k as [|k IH]; intros g Hok Hrange Hfit Hfree.
  - exists g. pose proof Hok as [_ Ho]. split; [done|]. split.
    + rewrite Z.add_0_r, Z.mod_small; lia.
    + split; [|by destruct g]. intros p. split; [by left|]. intros [?|?]; [done|lia].
  - pose proof Hok as [[Hs1 Hs2] Ho].
    pose proof Hrange as (Hmin & Hmax & Hsize).
    assert (Hf0 : ¬ used g (offset g)) by (apply Hfree; lia).
    pose proof (Allocate_cursor_free_ok n g Hok Hf0) as Hrun.
    set (g1 := with_offset ((offset g + 1) mod valueRange g)
                 (with_usedMap (<[offset g := true]> (usedMap g)) g)) in *.
    assert (Hok1 : cursor_ok g1).
    { apply cursor_ok_with_offset; [done|]. simpl. apply Z.mod_pos_bound. lia. }
    assert (Hid : Int64.add (offset g) (minValue g) = minValue g + offset g).
    { rewrite add_small; [lia|].
      unfold Int64.in_range, Int64.min_int, Int64.max_int in *. lia. }
    assert (Hu1 : ∀ p, used g1 p ↔ p = offset g ∨ used g p).
    { intros p. apply (used_insert g (offset g) p). }
    assert (Hcur : (k = 0%nat ∧ offset g + 1 = valueRange g ∧ offset g1 = 0) ∨
                   (offset g + 1 < valueRange g ∧ offset g1 = offset g + 1)).
    { simpl. destruct (decide (offset g + 1 = valueRange g)) as [E|E].
      - left. split; [lia|]. split; [done|]. rewrite E. apply Z_mod_same_full.
      - right. split; [lia|]. apply Z.mod_small. lia. }
    destruct (IH g1 Hok1 Hrange) as (g2 & Hrs & Hoff & Hused & Hg2).
    { destruct Hcur as [(-> & _ & E)|[_ E]]; rewrite E; simpl; lia. }
    { intros p Hp Hu. apply Hu1 in Hu.
      destruct Hcur as [(-> & _ & E)|[_ E]]; rewrite E in Hp; [lia|].
      destruct Hu as [->|Hu]; [lia|]. apply (Hfree p); [lia|done]. }
    exists g2. split; [|split; [|split]].
    + change (allocations (S k)) with (CallAllocate :: allocations k).
      cbn [perform_all perform]. rewrite Hrun. cbn [mbind run_bind].
      rewrite Hrs. cbn [mbind run_bind].
      rewrite (seqZ_cons (minValue g + offset g)) by lia.
      rewrite Hid. cbn [fmap list_fmap]. do 3 f_equal.
      destruct Hcur as [(-> & _ & E)|[_ E]].
      * by rewrite !seqZ_nil by lia.
      * change (minValue g1) with (minValue g). rewrite E. f_equal. f_equal; lia.
    + rewrite Hoff. change (valueRange g1) with (valueRange g).
      destruct Hcur as [(-> & Hend & E)|[_ E]]; rewrite E.
      * replace (offset g + Z.of_nat 1) with (valueRange g) by lia.
        rewrite Z_mod_same_full. apply Z.mod_small. lia.
      * f_equal. lia.
    + intros p. rewrite Hused, Hu1.
      destruct Hcur as [(-> & Hend & E)|[_ E]]; rewrite E; split; intros H.
      * destruct H as [[->|H]|H]; [right; lia|by left|lia].
      * destruct H as [H|H]; [left; by right|].
        assert (p = offset g) as -> by lia. left. by left.
      * destruct H as [[->|H]|H]; [right; lia|by left|right; lia].
      * destruct H as [H|H]; [left; by right|].
        destruct (decide (p = offset g)) as [->|Hne]; [left; by left|right; lia].
    + rewrite Hg2. by destruct g.
Qed.

End allocate_order.

(** X5. First fit from the cursor: an [Allocate] that returns an ID took
    the first free offset in cyclic order from the cursor (every offset
    before it on the way was taken), returned that offset plus [minValue],
    recorded it, and left the cursor one past it, modulo the size. *)
Theorem Allocate_first_free n g id g' :
  cursor_ok g →
  Allocate n g = Done ((id, None), g') →
  ∃ j, 0 <= j < valueRange g ∧
       (∀ k, 0 <= k < j → used g ((offset g + k) mod valueRange g)) ∧
       ¬ used g ((offset g + j) mod valueRange g) ∧
       id = Int64.add ((offset g + j) mod valueRange g) (minValue g) ∧
       g' = with_offset ((offset g + j + 1) mod valueRange g)
              (with_usedMap
                 (<[(offset g + j) mod valueRange g := true]> (usedMap g)) g).
Proof.
  intros Hok Hrun. pose proof Hok as [[Hs1 Hs2] Ho].
  set (m := (n `max` Z.to_nat (valueRange g))%nat).
  apply (Allocate_mono n m) in Hrun; [|lia].
  destruct (Allocate_scan_spec m (offset g) g 0)
    as [(j & Hj & Hall & Hfree & Hscan)|[_ Hscan]];
    [done|done|lia|by rewrite Z.add_0_r, Z.mod_small|lia| |].
  - exists j. unfold Allocate in Hrun. rewrite Hscan in Hrun. simpl in Hrun.
    rewrite updateOffset_ok in Hrun.
    + simpl in Hrun. injection Hrun as <- <-.
      split; [lia|]. split; [intros k Hk; apply Hall; lia|]. split; [done|].
      split; [done|]. simpl. unfold with_offset, with_usedMap. simpl.
      f_equal. rewrite mod_step by lia. done.
    + split; simpl; [done|]. apply Z.mod_pos_bound. lia.
  - unfold Allocate in Hrun. rewrite Hscan in Hrun. simpl in Hrun. done.
Qed.

Lemma Allocate_first_free_witness :
  ∃ j, 0 <= j < 3 ∧
       (∀ k, 0 <= k < j →
             used (mkIDGenerator 1 3 3 2 (<[0 := true]> {[2 := true]}))
               ((2 + k) mod 3)) ∧
       ¬ used (mkIDGenerator 1 3 3 2 (<[0 := true]> {[2 := true]}))
           ((2 + j) mod 3) ∧
       2 = Int64.add ((2 + j) mod 3) 1 ∧
       mkIDGenerator 1 3 3 2 (<[1 := true]> (<[0 := true]> {[2 := true]}))
       = with_offset ((2 + j + 1) mod 3)
           (with_usedMap (<[(2 + j) mod 3 := true]>
                            (<[0 := true]> {[2 := true]}))
              (mkIDGenerator 1 3 3 2 (<[0 := true]> {[2 := true]}))).
Proof.
  assert (Hrun : Allocate 3 (mkIDGenerator 1 3 3 2 (<[0 := true]> {[2 := true]}))
                 = Done ((2, None),
                         mkIDGenerator 1 3 3 2
                           (<[1 := true]> (<[0 := true]> {[2 := true]}))))
    by (vm_compute; reflexivity).
  refine (Allocate_first_free _ _ _ _ _ Hrun).
  unfold cursor_ok, Int64.max_int. simpl. lia.
Defined.

(** X6. Over a run of [k] free offsets that starts at the cursor and does
    not pass the end of the range, [k] calls of [Allocate] return the
    consecutive IDs [minValue + cursor], [minValue + cursor + 1], ...,
    each in a single iteration; afterwards exactly those offsets have been
    added to the map and the cursor stands after the run, modulo the size. *)
Theorem Allocate_consecutive n k g :
  cursor_ok g → range_ok g →
  offset g + Z.of_nat k <= valueRange g →
  (∀ p, offset g <= p < offset g + Z.of_nat k → ¬ used g p) →
  ∃ g',
    perform_all (S n) g (allocations k)
      = Done ((λ id, Some (id, None)) <$> seqZ (minValue g + offset g) (Z.of_nat k),
              g') ∧
    offset g' = (offset g + Z.of_nat k) mod valueRange g ∧
    (∀ p, used g' p ↔ used g p ∨ offset g <= p < offset g + Z.of_nat k).
Proof.
  intros Hok Hrange Hfit Hfree.
  destruct (allocations_run n k g Hok Hrange Hfit Hfree)
    as (g' & Hrs & Hoff & Hused & _).
  by exists g'.
Qed.

Lemma Allocate_consecutive_witness :
  ∃ g',
    perform_all 1 (mkIDGenerator 10 19 10 4 {[2 := true]}) (allocations 3)
      = Done ((λ id, Some (id, None)) <$> seqZ (10 + 4) (Z.of_nat 3), g') ∧
    offset g' = (4 + Z.of_nat 3) mod 10 ∧
    (∀ p, used g' p ↔
          used (mkIDGenerator 10 19 10 4 {[2 := true]}) p ∨
          4 <= p < 4 + Z.of_nat 3).
Proof.
  apply (Allocate_consecutive 0 3 (mkIDGenerator 10 19 10 4 {[2 := true]})).
  - unfold cursor_ok, Int64.max_int. simpl. lia.
  - unfold range_ok, Int64.in_range, Int64.min_int, Int64.max_int. simpl. lia.
  - simpl. lia.
  - simpl. intros p Hp [v Hv]. simpl in Hv.
    apply lookup_singleton_Some in Hv as [<- _]. lia.
Defined.

(** X7. A fresh generator over a range that fits [int64] hands out the
    whole range in increasing order: [maxValue - minValue + 1] calls of
    [Allocate] return [minValue], [minValue + 1], ..., [maxValue], the
    cursor is back at 0, and every further [Allocate] returns the error. *)
Theorem fresh_generator_full_cycle n minV maxV :
  Int64.in_range minV → Int64.in_range maxV →
  minV <= maxV → maxV - minV < Int64.max_int →
  ∃ g',
    perform_all (S n) (NewGenerator minV maxV)
      (allocations (Z.to_nat (maxV - minV + 1)))
      = Done ((λ id, Some (id, None)) <$> seqZ minV (maxV - minV + 1), g') ∧
    offset g' = 0 ∧
    ∀ m, maxV - minV + 1 <= Z.of_nat m →
         Allocate m g' = Done ((0, Some errExhausted), g').
Proof.
  intros Hmin Hmax Hle Hfit.
  destruct (NewGenerator_ok minV maxV Hmin Hmax Hle Hfit) as [Hok Hrange].
  pose proof Hrange as (_ & _ & Hsize). simpl in Hsize.
  destruct (allocations_run n (Z.to_nat (maxV - minV + 1)) (NewGenerator minV maxV))
    as (g' & Hrs & Hoff & Hused & Hg'); [done|done| | |].
  - simpl. rewrite Hsize. lia.
  - intros p _. apply NewGenerator_empty.
  - simpl in Hrs, Hoff, Hused. rewrite Z2Nat.id in Hrs, Hoff, Hused by lia.
    rewrite Z.add_0_r in Hrs. rewrite Hsize, Z.add_0_l, Z_mod_same_full in Hoff.
    exists g'. split; [exact Hrs|]. split; [exact Hoff|].
    intros m Hm.
    assert (Hvr : valueRange g' = maxV - minV + 1) by (rewrite Hg'; simpl; lia).
    assert (Hok' : cursor_ok g').
    { unfold cursor_ok. rewrite Hvr, Hoff. unfold Int64.max_int in *. lia. }
    destruct (Allocate_spec m g' Hok') as [(o & Ho & Hfree & _)|[_ Hrun]];
      [lia| |done].
    exfalso. apply Hfree, Hused. right. lia.
Qed.

Lemma fresh_generator_full_cycle_witness :
  ∃ g',
    perform_all 1 (NewGenerator (-2) 2) (allocations (Z.to_nat (2 - -2 + 1)))
      = Done ((λ id, Some (id, None)) <$> seqZ (-2) (2 - -2 + 1), g') ∧
    offset g' = 0 ∧
    ∀ m, 2 - -2 + 1 <= Z.of_nat m →
         Allocate m g' = Done ((0, Some errExhausted), g').
Proof.
  apply (fresh_generator_full_cycle 0 (-2) 2).
  - by vm_compute.
  - by vm_compute.
  - lia.
  - by vm_compute.
Defined.

(** X8. [Allocate] cannot fail below capacity: from a valid cursor, while
    the map has fewer entries than the range has offsets, [Allocate]
    returns an ID, whatever the keys of the map are. *)
Theorem Allocate_succeeds_below_capacity n g :
  cursor_ok g → valueRange g <= Z.of_nat n →
  Z.of_nat (size (usedMap g)) < valueRange g →
  ∃ id g', Allocate n g = Done ((id, None), g').
Proof.
  intros Hok Hn Hsize.
  destruct (Allocate_spec n g Hok Hn) as [(o & _ & _ & Hrun)|[Hall _]]; [eauto|].
  apply all_used_size in Hall. lia.
Qed.

Lemma Allocate_succeeds_below_capacity_witness :
  ∃ id g',
    Allocate 2 (mkIDGenerator 5 6 2 0 (<[0 := true]> ∅)) = Done ((id, None), g').
Proof.
  apply Allocate_succeeds_below_capacity.
  - unfold cursor_ok, Int64.max_int. simpl. lia.
  - simpl. lia.
  - vm_compute. reflexivity.
Defined.

(** ** Counting the entries of the map *)

(** X9. Each call that returns an ID adds exactly one entry to the map,
    for [Allocate] and for [AllocateWithOffset] alike, and [FreeID] removes
    exactly one entry when [id] is within the bounds and is a key, and none
    otherwise. *)
Theorem map_size_accounting :
  (∀ n g id g',
     Allocate n g = Done ((id, None), g') →
     size (usedMap g') = S (size (usedMap g))) ∧
  (∀ n g o id g',
     AllocateWithOffset n g o = Done ((id, None), g') →
     size (usedMap g') = S (size (usedMap g))) ∧
  (∀ g id,
     size (usedMap (FreeID g id)) =
       if decide (minValue g <= id <= maxValue g ∧ used g id)
       then pred (size (usedMap g)) else size (usedMap g)).
Proof.
  split; [|split].
  - intros n g id g'. unfold Allocate.
    destruct (Allocate_scan n (offset g) g) as [[g1|g1]| |] eqn:Hscan;
      simpl; [|done|done|done].
    apply Allocate_scan_frame in Hscan as [Hg1 Hfree%not_used_None].
    destruct (updateOffset _) as [g3| |] eqn:Hup; simpl; [|done|done].
    intros [= _ <-]. apply updateOffset_frame in Hup. rewrite Hup. simpl.
    rewrite Hg1. simpl. by apply map_size_insert_None.
  - intros n g o id g' [Hfree ->]%AllocateWithOffset_success. simpl.
    by apply map_size_insert_None.
  - intros g id. unfold FreeID.
    destruct (decide (id < minValue g ∨ id > maxValue g)) as [Hout|Hin].
    + rewrite decide_False; [done|]. intros [? _]. lia.
    + simpl. destruct (decide (used g id)) as [Hu|Hnu].
      * rewrite decide_True by (split; [lia|done]).
        by apply map_size_delete_Some.
      * rewrite decide_False by (by intros [_ ?]).
        apply map_size_delete_None. by apply not_used_None.
Qed.

Lemma map_size_accounting_witness :
  size (usedMap (mkIDGenerator 1 3 3 1 {[0 := true]})) = S (size (usedMap (NewGenerator 1 3))) ∧
  size (usedMap (mkIDGenerator 5 10 6 0 {[2 := true]}))
    = S (size (usedMap (mkIDGenerator 5 10 6 0 ∅))).
Proof.
  assert (H1 : Allocate 3 (NewGenerator 1 3)
               = Done ((1, None), mkIDGenerator 1 3 3 1 {[0 := true]}))
    by (vm_compute; reflexivity).
  assert (H2 : AllocateWithOffset 1 (mkIDGenerator 5 10 6 0 ∅) 2
               = Done ((2, None), mkIDGenerator 5 10 6 0 {[2 := true]}))
    by (vm_compute; reflexivity).
  split.
  - exact (proj1 map_size_accounting _ _ _ _ H1).
  - exact (proj1 (proj2 map_size_accounting) _ _ _ _ _ H2).
Defined.

(** ** The two entry points on one map *)

(** X10. The two entry points can hand out the same ID with no release in
    between. On a fresh generator over a range that fits [int64] and starts
    above 0, [AllocateWithOffset o] with [o] in the range returns [o] and
    records the key [o]; [Allocate] reads that key as the offset of the ID
    [o + minValue], so the following [o - minValue + 1] calls of [Allocate]
    return [minValue], ..., [o]: the ID [o] a second time. *)
Theorem same_id_from_both_entry_points n minV maxV o :
  Int64.in_range minV → Int64.in_range maxV →
  maxV - minV < Int64.max_int →
  0 < minV → minV <= o <= maxV →
  ∃ g',
    perform_all (S n) (NewGenerator minV maxV)
      (CallAllocateWithOffset o :: allocations (Z.to_nat (o - minV + 1)))
    = Done (Some (o, None) ::
              ((λ id, Some (id, None)) <$> seqZ minV (o - minV + 1)), g') ∧
    o ∈ seqZ minV (o - minV + 1).
Proof.
  intros Hmin Hmax Hfit Hpos Ho.
  destruct (NewGenerator_ok minV maxV Hmin Hmax ltac:(lia) Hfit) as [Hok Hrange].
  pose proof Hrange as (_ & _ & Hsize). simpl in Hsize.
  set (g := NewGenerator minV maxV) in *.
  set (g1 := with_usedMap (<[o := true]> (usedMap g)) g).
  assert (Hawo : AllocateWithOffset (S n) g o = Done ((o, None), g1))
    by (apply AllocateWithOffset_free, NewGenerator_empty).
  destruct (allocations_run n (Z.to_nat (o - minV + 1)) g1)
    as (g' & Hrs & _); [done|done| | |].
  - simpl. rewrite Hsize. lia.
  - simpl. intros p Hp Hu. apply used_insert in Hu as [->|Hu]; [lia|].
    by apply NewGenerator_empty in Hu.
  - exists g'. split.
    + cbn [perform_all perform]. rewrite Hawo. cbn [mbind run_bind].
      rewrite Hrs. cbn [mbind run_bind]. simpl.
      rewrite Z.add_0_r, Z2Nat.id by lia. done.
    + apply elem_of_seqZ. lia.
Qed.

Lemma same_id_from_both_entry_points_witness :
  ∃ g',
    perform_all 1 (NewGenerator 1 3)
      (CallAllocateWithOffset 2 :: allocations (Z.to_nat (2 - 1 + 1)))
    = Done (Some (2, None) ::
              ((λ id, Some (id, None)) <$> seqZ 1 (2 - 1 + 1)), g') ∧
    2 ∈ seqZ 1 (2 - 1 + 1).
Proof.
  apply (same_id_from_both_entry_points 0 1 3 2).
  - by vm_compute.
  - by vm_compute.
  - by vm_compute.
  - lia.
  - lia.
Defined.

(** ** Bounds that [NewGenerator] does not check *)

(** X11. A range of size 0 makes [Allocate] panic: with [valueRange = 0]
    every call divides by zero in [updateOffset], whether the cursor's
    offset is free or not. [NewGenerator] computes that size for
    [maxValue = minValue - 1], and for the whole of [int64], where
    [maxValue - minValue + 1] wraps around to 0. *)
Theorem Allocate_panics_on_zero_range :
  (∀ n g, valueRange g = 0 → Allocate (S n) g = Panic) ∧
  (∀ minV, valueRange (NewGenerator minV (minV - 1)) = 0) ∧
  valueRange (NewGenerator Int64.min_int Int64.max_int) = 0.
Proof.
  split; [|split].
  - intros n g Hz. unfold Allocate. simpl.
    destruct (usedMap g !! offset g); simpl;
      unfold updateOffset, Int64.rem; simpl; rewrite Hz;
      by rewrite decide_True.
  - intros minV. simpl. unfold Int64.sub.
    replace (minV - 1 - minV) with (-1) by lia. done.
  - done.
Qed.

Lemma Allocate_panics_on_zero_range_witness :
  Allocate 1 (NewGenerator 5 4) = Panic.
Proof.
  apply (proj1 Allocate_panics_on_zero_range 0%nat (NewGenerator 5 4)).
  exact (proj1 (proj2 Allocate_panics_on_zero_range) 5).
Defined.

(** X12. [NewGenerator] accepts any two bounds, and the first [Allocate] on
    the generator it builds returns [minValue] whenever the computed size
    is not 0, also when [maxValue] is below [minValue] and the range is
    empty; the cursor is then the remainder of 1 by the size. *)
Theorem first_Allocate_returns_minValue n minV maxV :
  Int64.in_range minV →
  valueRange (NewGenerator minV maxV) ≠ 0 →
  Allocate (S n) (NewGenerator minV maxV) =
    Done ((minV, None),
          mkIDGenerator minV maxV
            (valueRange (NewGenerator minV maxV))
            (Z.rem 1 (valueRange (NewGenerator minV maxV)))
            (<[0 := true]> ∅)).
Proof.
  intros Hmin Hnz. rewrite Allocate_cursor_free by done.
  unfold updateOffset, Int64.rem. simpl offset. simpl valueRange in *.
  change (Int64.add 0 1) with 1. rewrite decide_False by done.
  simpl. unfold Int64.add. rewrite Z.add_0_l, wrap_id by done. done.
Qed.

Lemma first_Allocate_returns_minValue_witness :
  Allocate 1 (NewGenerator 5 3) =
    Done ((5, None),
          mkIDGenerator 5 3
            (valueRange (NewGenerator 5 3))
            (Z.rem 1 (valueRange (NewGenerator 5 3)))
            (<[0 := true]> ∅)).
Proof.
  apply (first_Allocate_returns_minValue 0 5 3).
  - by vm_compute.
  - by vm_compute.
Defined.

(** ** The order in which [AllocateWithOffset] hands out positions *)

Section offset_order.

Variable g : IDGenerator.
Hypothesis Hmax : maxValue g < Int64.max_int.

(** The scan breaks at the first free position from [c] upwards. *)
Lemma AllocateWithOffset_scan_first n c x :
  Int64.in_range c → c < Int64.max_int →
  AllocateWithOffset_scan n g c = Done (Break x) →
  c <= x ∧ (∀ p, c <= p < x → used g p) ∧ ¬ used g x ∧
  (x = c ∨ x <= maxValue g).
Proof.
  revert c. induction n as [|n IH]; intros c Hc Hlt; simpl; [done|].
  destruct (usedMap g !! c) as [v|] eqn:Hu.
  - rewrite add_one_small by done.
    destruct (decide (c + 1 > maxValue g)) as [Hgt|Hle]; [done|].
    intros Hrun. apply IH in Hrun as (Hcx & Hall & Hfree & Hx).
    + split; [lia|]. split; [|split; [done|right; lia]].
      intros p Hp. destruct (decide (p = c)) as [->|Hne].
      * unfold used. rewrite Hu. eauto.
      * apply Hall. lia.
    + unfold Int64.in_range, Int64.min_int, Int64.max_int in *. lia.
    + lia.
  - intros [= <-]. split; [lia|]. split; [intros; lia|].
    split; [by apply not_used_None|by left].
Qed.

(** Past [i] taken positions that end below [maxValue], the scan breaks at
    the free position after them, in [i + 1] iterations. *)
Lemma AllocateWithOffset_scan_skip i :
  ∀ n c,
    Int64.in_range c → c + Z.of_nat i <= maxValue g →
    (∀ p, c <= p < c + Z.of_nat i → used g p) →
    ¬ used g (c + Z.of_nat i) → (i < n)%nat →
    AllocateWithOffset_scan n g c = Done (Break (c + Z.of_nat i)).
Proof.
  induction i as [|i IH]; intros n c Hc Hle Hall Hfree Hn;
    (destruct n as [|n]; [lia|]); simpl.
  - rewrite Z.add_0_r in Hfree |- *. apply not_used_None in Hfree.
    by rewrite Hfree.
  - destruct (usedMap g !! c) as [v|] eqn:Hu.
    + rewrite add_one_small by (done || lia).
      rewrite decide_False by lia.
      rewrite (IH n (c + 1)).
      * f_equal. f_equal. lia.
      * unfold Int64.in_range, Int64.min_int, Int64.max_int in *. lia.
      * lia.
      * intros p Hp. apply Hall. lia.
      * replace (c + 1 + Z.of_nat i) with (c + Z.of_nat (S i)) by lia. done.
      * lia.
    + exfalso. assert (Hu' : used g c) by (apply Hall; lia).
      apply not_used_None in Hu. done.
Qed.

(** Over [i + 1] taken positions that end at [maxValue], the scan gives up
    in [i + 1] iterations. *)
Lemma AllocateWithOffset_scan_full i :
  ∀ n c,
    Int64.in_range c → c + Z.of_nat i = maxValue g →
    (∀ p, c <= p <= maxValue g → used g p) → (i < n)%nat →
    AllocateWithOffset_scan n g c = Done (Exhausted (maxValue g + 1)).
Proof.
  induction i as [|i IH]; intros n c Hc Hend Hall Hn;
    (destruct n as [|n]; [lia|]); simpl;
    (destruct (usedMap g !! c) as [v|] eqn:Hu;
     [|exfalso; assert (used g c) by (apply Hall; lia);
       by apply not_used_None in Hu]);
    rewrite add_one_small by (done || lia).
  - rewrite decide_True by lia. do 2 f_equal. lia.
  - rewrite decide_False by lia. apply IH.
    + unfold Int64.in_range, Int64.min_int, Int64.max_int in *. lia.
    + lia.
    + intros p Hp. apply Hall. lia.
    + lia.
Qed.

End offset_order.

(** [k] calls of [AllocateWithOffset o], after [i] positions from [o] have
    been taken and with the next [k] free and within [maxValue]. *)
Lemma offset_allocations_run n o k :
  ∀ g (i : nat),
    maxValue g < Int64.max_int → Int64.in_range o →
    o + Z.of_nat i + Z.of_nat k <= maxValue g + 1 →
    (∀ p, o <= p < o + Z.of_nat i → used g p) →
    (∀ p, o + Z.of_nat i <= p < o + Z.of_nat i + Z.of_nat k → ¬ used g p) →
    (i + k <= n)%nat →
    ∃ g',
      perform_all n g (replicate k (CallAllocateWithOffset o))
        = Done ((λ id, Some (id, None)) <$> seqZ (o + Z.of_nat i) (Z.of_nat k), g') ∧
      (∀ p, used g' p ↔
            used g p ∨ o + Z.of_nat i <= p < o + Z.of_nat i + Z.of_nat k) ∧
      g' = with_usedMap (usedMap g') g.
Proof.
  induction k as [|k IH]; intros g i Hmax Ho Hfit Hused Hfree Hn.
  - exists g. split; [done|]. split; [|by destruct g].
    intros p. split; [by left|]. intros [?|?]; [done|lia].
  - assert (Hscan : AllocateWithOffset_scan n g o
                    = Done (Break (o + Z.of_nat i))).
    { apply AllocateWithOffset_scan_skip; [done|done|lia|done| |lia].
      apply Hfree. lia. }
    set (g1 := with_usedMap (<[o + Z.of_nat i := true]> (usedMap g)) g).
    assert (Hu1 : ∀ p, used g1 p ↔ p = o + Z.of_nat i ∨ used g p)
      by (intros p; apply used_insert).
    destruct (IH g1 (S i)) as (g2 & Hrs & Hused2 & Hg2);
      [done|done|simpl; lia| | |lia|].
    + intros p Hp. apply Hu1.
      destruct (decide (p = o + Z.of_nat i)) as [->|Hne]; [by left|].
      right. apply Hused. lia.
    + intros p Hp Hu. apply Hu1 in Hu as [->|Hu]; [lia|].
      apply (Hfree p); [lia|done].
    + exists g2. split; [|split].
      * cbn [replicate perform_all perform]. unfold AllocateWithOffset.
        rewrite Hscan. cbn [mbind run_bind]. fold g1.
        rewrite Hrs. cbn [mbind run_bind].
        rewrite (seqZ_cons (o + Z.of_nat i)) by lia.
        cbn [fmap list_fmap]. do 3 f_equal. f_equal. f_equal; lia.
      * intros p. rewrite Hused2, Hu1. split; intros H.
        -- destruct H as [[->|H]|H]; [right; lia|by left|right; lia].
        -- destruct H as [H|H]; [left; by right|].
           destruct (decide (p = o + Z.of_nat i)) as [->|Hne];
             [left; by left|right; lia].
      * rewrite Hg2. by destruct g.
Qed.

(** X13. First fit from [offset0] upwards: an [AllocateWithOffset] that
    returns an ID (with [offset0] and [maxValue] below the largest [int64])
    returns the first position at or above [offset0] that is not a key;
    every position between [offset0] and the ID was a key, and the ID is
    [offset0] itself or at most [maxValue]. The scan never wraps around to
    positions below [offset0]. *)
Theorem AllocateWithOffset_first_free n g o id g' :
  maxValue g < Int64.max_int → Int64.in_range o → o < Int64.max_int →
  AllocateWithOffset n g o = Done ((id, None), g') →
  o <= id ∧ (∀ p, o <= p < id → used g p) ∧ ¬ used g id ∧
  (id = o ∨ id <= maxValue g).
Proof.
  intros Hmax Ho Hlt. unfold AllocateWithOffset.
  destruct (AllocateWithOffset_scan n g o) as [[x|x]| |] eqn:Hscan;
    simpl; [|done|done|done].
  intros [= <- _]. by apply (AllocateWithOffset_scan_first g Hmax n o x).
Qed.

Lemma AllocateWithOffset_first_free_witness :
  4 <= 6 ∧
  (∀ p, 4 <= p < 6 → used (mkIDGenerator 1 10 10 0 (<[5 := true]> {[4 := true]})) p) ∧
  ¬ used (mkIDGenerator 1 10 10 0 (<[5 := true]> {[4 := true]})) 6 ∧
  (6 = 4 ∨ 6 <= 10).
Proof.
  assert (Hrun : AllocateWithOffset 3
                   (mkIDGenerator 1 10 10 0 (<[5 := true]> {[4 := true]})) 4
                 = Done ((6, None),
                         mkIDGenerator 1 10 10 0
                           (<[6 := true]> (<[5 := true]> {[4 := true]}))))
    by (vm_compute; reflexivity).
  refine (AllocateWithOffset_first_free _ _ _ _ _ _ _ _ Hrun); by vm_compute.
Defined.

(** X14. Repeated [AllocateWithOffset o] fills the range upwards and then
    fails: when every position from [o] through [maxValue] is free (and
    [maxValue] is below the largest [int64]), [maxValue - o + 1] calls
    return [o], [o + 1], ..., [maxValue] in this order, within a budget of
    that many iterations each, and the next call returns the error. *)
Theorem AllocateWithOffset_fills_to_max n g o :
  maxValue g < Int64.max_int → Int64.in_range o → o <= maxValue g →
  (∀ p, o <= p <= maxValue g → ¬ used g p) →
  (Z.to_nat (maxValue g - o + 1) <= n)%nat →
  ∃ g',
    perform_all n g
      (replicate (Z.to_nat (maxValue g - o + 1)) (CallAllocateWithOffset o))
    = Done ((λ id, Some (id, None)) <$> seqZ o (maxValue g - o + 1), g') ∧
    AllocateWithOffset n g' o = Done ((0, Some errExhausted), g').
Proof.
  intros Hmax Ho Hle Hfree Hn.
  destruct (offset_allocations_run n o (Z.to_nat (maxValue g - o + 1)) g 0)
    as (g' & Hrs & Hused & Hg'); [done|done|lia|intros; lia| |lia|].
  - intros p Hp. apply Hfree. lia.
  - exists g'. split.
    + rewrite Hrs. rewrite Z.add_0_r, Z2Nat.id by lia. done.
    + assert (Hmax' : maxValue g' = maxValue g) by (rewrite Hg'; done).
      unfold AllocateWithOffset.
      rewrite (AllocateWithOffset_scan_full g' ltac:(lia)
                 (Z.to_nat (maxValue g - o)) n o); [done|done|lia| |lia].
      intros p Hp. apply Hused. right. lia.
Qed.

Lemma AllocateWithOffset_fills_to_max_witness :
  ∃ g',
    perform_all 3 (NewGenerator 1 10)
      (replicate (Z.to_nat (10 - 8 + 1)) (CallAllocateWithOffset 8))
    = Done ((λ id, Some (id, None)) <$> seqZ 8 (10 - 8 + 1), g') ∧
    AllocateWithOffset 3 g' 8 = Done ((0, Some errExhausted), g').
Proof.
  apply (AllocateWithOffset_fills_to_max 3 (NewGenerator 1 10) 8).
  - by vm_compute.
  - by vm_compute.
  - simpl. lia.
  - intros p _. apply NewGenerator_empty.
  - simpl. lia.
Defined.

(** ** The cursor over a whole history *)

(** X15. From a generator with a valid cursor (a fresh one over a range
    that fits [int64] is one), no sequence of calls of the three methods
    ever moves the cursor out of [0, size) or changes the size: whatever
    the calls and their arguments, the state they end in has a valid
    cursor again. *)
Theorem cursor_always_valid :
  (∀ n cs g rs g',
     cursor_ok g → perform_all n g cs = Done (rs, g') →
     cursor_ok g' ∧ valueRange g' = valueRange g) ∧
  (∀ minV maxV,
     Int64.in_range minV → Int64.in_range maxV →
     minV <= maxV → maxV - minV < Int64.max_int →
     cursor_ok (NewGenerator minV maxV)).
Proof.
  split.
  - intros n cs g rs g'. apply perform_all_cursor_ok.
  - intros minV maxV Hmin Hmax Hle Hfit.
    by destruct (NewGenerator_ok minV maxV Hmin Hmax Hle Hfit).
Qed.

Lemma cursor_always_valid_witness :
  cursor_ok (mkIDGenerator 1 3 3 0
               (<[1 := true]> (<[7 := true]> {[0 := true]}))) ∧
  cursor_ok (NewGenerator 1 3).
Proof.
  assert (Hnew : cursor_ok (NewGenerator 1 3)).
  { apply (proj2 cursor_always_valid); by vm_compute. }
  split; [|exact Hnew].
  refine (proj1 (proj1 cursor_always_valid 3%nat
            [CallAllocate; CallAllocateWithOffset 7; CallAllocate;
             CallFreeID 2; CallAllocate; CallFreeID 2]
            (NewGenerator 1 3) _ _ Hnew _)).
  vm_compute. reflexivity.
Defined.

(** ** [AllocateWithOffset] at the top of [int64] *)

Lemma AllocateWithOffset_scan_never_exhausted n g c x :
  maxValue g = Int64.max_int →
  AllocateWithOffset_scan n g c ≠ Done (Exhausted x).
Proof.
  intros Hmax. revert c. induction n as [|n IH]; intros c; simpl; [done|].
  destruct (usedMap g !! c); [|done].
  destruct (decide (Int64.add c 1 > maxValue g)) as [Hgt|_]; [|apply IH].
  pose proof (add_one_in_range c) as [_ Hle]. lia.
Qed.

(** X16. With [maxValue] the largest [int64], [AllocateWithOffset] never
    returns the error: the test [current > maxValue] cannot hold, the
    increment wraps around to the smallest [int64], and the scan goes on
    until it meets a position that is not a key, which it returns. *)
Theorem AllocateWithOffset_never_fails_at_max_int n g o :
  maxValue g = Int64.max_int →
  len_ok g → Int64.in_range o → (size (usedMap g) < n)%nat →
  ∃ id g', AllocateWithOffset n g o = Done ((id, None), g') ∧ ¬ used g id.
Proof.
  intros Hmax Hlen Ho Hn.
  destruct (AllocateWithOffset_scan_done n g o Hlen Ho Hn) as [[x|x] Hscan].
  - exists x. eexists. unfold AllocateWithOffset. rewrite Hscan. simpl.
    split; [done|].
    by apply not_used_None, (AllocateWithOffset_scan_break_free n g o).
  - by apply AllocateWithOffset_scan_never_exhausted in Hscan.
Qed.

Lemma AllocateWithOffset_never_fails_at_max_int_witness :
  ∃ id g',
    AllocateWithOffset 2
      (mkIDGenerator 0 Int64.max_int Int64.min_int 0 {[Int64.max_int := true]})
      Int64.max_int
    = Done ((id, None), g') ∧
    ¬ used (mkIDGenerator 0 Int64.max_int Int64.min_int 0
              {[Int64.max_int := true]}) id.
Proof.
  apply AllocateWithOffset_never_fails_at_max_int.
  - reflexivity.
  - by vm_compute.
  - by vm_compute.
  - vm_compute. lia.
Defined.

(** X17. A released ID is what [AllocateWithOffset] returns next for it:
    after [FreeID id] with [id] within the bounds, [AllocateWithOffset id]
    returns [id] in one iteration and records it again. *)
Theorem FreeID_then_AllocateWithOffset n g id :
  minValue g <= id <= maxValue g →
  AllocateWithOffset (S n) (FreeID g id) id =
    Done ((id, None), with_usedMap (<[id := true]> (usedMap g)) g).
Proof.
  intros Hin. rewrite FreeID_inside by done.
  rewrite AllocateWithOffset_free.
  - unfold with_usedMap. simpl. by rewrite insert_delete_eq.
  - apply not_used_None. simpl. apply lookup_delete_eq.
Qed.

Lemma FreeID_then_AllocateWithOffset_witness :
  AllocateWithOffset 1 (FreeID (mkIDGenerator 1 10 10 0 {[4 := true]}) 4) 4 =
    Done ((4, None),
          with_usedMap (<[4 := true]> {[4 := true]})
            (mkIDGenerator 1 10 10 0 {[4 := true]})).
Proof.
  assert (Hin : minValue (mkIDGenerator 1 10 10 0 {[4 := true]}) <= 4
                <= maxValue (mkIDGenerator 1 10 10 0 {[4 := true]}))
    by (simpl; lia).
  exact (FreeID_then_AllocateWithOffset 0 _ 4 Hin).
Defined.
